(** * EchoPaths: generation service and story player

    A shallow embedding of [services/geminiService.ts] (module [Gemini]) and
    of the [StoryPlayer] component (module [Player]).

    Conventions of the embedding:
    - a JavaScript [number] that the code uses as a count or an index is an
      integer ([Z], or [nat] for the player's segment index, which starts at
      0 and is only ever incremented); a time in seconds is the rational a
      finite double denotes, and the subtraction of two times is the
      runtime's, which rounds its result: it comes with the browser
      ([Player.subtract]) and nothing is assumed of it;
    - a string is the sequence of its UTF-16 code units, of which the
      alphabet of [string] has the first 256: lengths and slices count code
      units, as the code's do;
    - memory is finite: whether the engine has room for an array of a given
      length is the engine's answer ([Array_refused], [push_refused]), on
      top of the language's own limit of [2^32 - 1] elements;
    - a value that may be [undefined] or [null] is an [option];
    - a promise is the outcome it settles to: [inr v] when it fulfils with
      [v], [inl e] when it rejects with (or the code throws) [e];
    - the JavaScript runtime, the remote model and the helpers of
      [audioUtils] are a [Host] record the service is run against. *)

From Stdlib Require Import ZArith QArith Qround Lia.
From Stdlib Require Import Ascii String DecimalString.
From stdpp Require Import base option list strings.
From Equations Require Import Equations.

Local Open Scope string_scope.
Local Open Scope Z_scope.
Local Open Scope list_scope.

(** ** Values shared by the service and the player

    [RouteDetails], [StorySegment], [StorySource], [AudioStory] and
    [StoryStyle] are declared in [types], which is not among the files at
    hand; the records below have the fields the two files read and write,
    and a story style is the string it is at run time. *)

(** A thrown JavaScript value: [new Error(msg)] has name ["Error"]. *)
Record Exn := mkExn { exnName : string; exnMessage : string }.

Definition Error (msg : string) : Exn := mkExn "Error" msg.
Definition RangeError (msg : string) : Exn := mkExn "RangeError" msg.
Definition TypeError (msg : string) : Exn := mkExn "TypeError" msg.

(** Web Audio's decoded [AudioBuffer]. *)
Record AudioBuffer := mkAudioBuffer {
  bufSampleRate : Z;
  duration : Q
}.

Record StorySource := mkSource { title : string; uri : string }.

Record StorySegment := mkSegment {
  index : Z;
  text : string;
  audioBuffer : option AudioBuffer;
  sources : option (list StorySource)
}.

Record RouteDetails := mkRoute {
  startAddress : string;
  endAddress : string;
  travelMode : string;
  routeDuration : string;
  storyStyle : string
}.

(** JavaScript truthiness of a possibly undefined string: [!!s]. *)
Definition truthy (s : option string) : bool :=
  match s with
  | Some s => negb (String.eqb s "")
  | None => false
  end.

(** Optional chaining: [o?.f] is [undefined] when [o] is. *)
Notation "o ?. f" := (mbind (M:=option) f o) (at level 40, left associativity).

Definition nl : string := String (ascii_of_nat 10) "".
Definition dq : string := String (ascii_of_nat 34) "".

Module Gemini.

(** ** Requests and responses of [ai.models.generateContent] *)

Inductive Tool := GoogleSearch.
Inductive Modality := AUDIO.

Inductive Contents :=
| Prompt (p : string)
| Parts (t : string).   (* [{ parts: [{ text: t }] }] *)

Record Config := mkConfig {
  responseMimeType : option string;
  tools : option (list Tool);
  responseModalities : option (list Modality);
  voiceName : option string
}.

Record Request := mkRequest {
  model : string;
  contents : Contents;
  config : Config
}.

Record WebChunk := mkWeb { webUri : option string; webTitle : option string }.
Record GroundingChunk := mkChunk { web : option WebChunk }.
Record GroundingMetadata := mkGrounding { groundingChunks : option (list GroundingChunk) }.
Record InlineData := mkInline { data : option string; mimeType : option string }.
Record Part := mkPart { inlineData : option InlineData }.
Record Content := mkContent { parts : option (list Part) }.
Record Candidate := mkCandidate {
  content : option Content;
  groundingMetadata : option GroundingMetadata
}.
Record Response := mkResponse {
  respText : option string;
  candidates : option (list Candidate)
}.

(** What [JSON.parse] returns. *)
#[local] Unset Elimination Schemes.
Inductive Json :=
| JNull
| JBool (b : bool)
| JNum (q : Q)
| JStr (s : string)
| JArr (l : list Json)
| JObj (l : list (string * Json)).
#[local] Set Elimination Schemes.

(** The environment the module runs in: string primitives of the runtime,
    [JSON.parse], the remote model behind [ai.models.generateContent], the
    two helpers imported from [./audioUtils] (whose code is not part of
    the files at hand; [pcmToWav] stands for [pcmToWav(..).arrayBuffer()]),
    and the engine's memory. An engine out of memory throws (V8 throws a
    [RangeError] for an array it cannot allocate) or ends the process; the
    second is no outcome of [Eff], and every statement about an array being
    built assumes the engine has the room. *)
Record Host := mkHost {
  trim : string → string;
  toLowerCase : string → string;
  numberToString : Z → string;
  JSON_parse : string → Exn + Json;
  generateContent : Request → Exn + Response;
  base64ToArrayBuffer : string → Exn + list Byte.byte;
  pcmToWav : list Byte.byte → Z → Exn + list Byte.byte;
  (* memory: what the engine throws when it has no room for [Array(n)],
     [n] a valid array length, and [None] when it has *)
  Array_refused : Z → option Exn;
  (* the same for a [push] onto an array of [n] elements *)
  push_refused : Z → option Exn
}.

(** The [audioContext] argument of [generateSegmentAudio]. *)
Record AudioContext := mkAudioContext {
  decodeAudioData : list Byte.byte → Exn + AudioBuffer
}.

(** ** Effects: the calls made and the lines logged, and an outcome *)

Inductive Event :=
| ApiCall (r : Request)
| ConsoleError (label : string) (e : Exn).

Definition Eff (A : Type) : Type := list Event * (Exn + A).

Definition ret {A} (x : A) : Eff A := ([], inr x).
Definition throw {A} (e : Exn) : Eff A := ([], inl e).
Definition lift {A} (r : Exn + A) : Eff A := ([], r).

Definition bind {A B} (m : Eff A) (k : A → Eff B) : Eff B :=
  match m with
  | (t, inl e) => (t, inl e)
  | (t, inr x) => let '(t', r) := k x in (t ++ t', r)
  end.

(** [try { m } catch (error) { h error }] *)
Definition try_catch {A} (m : Eff A) (h : Exn → Eff A) : Eff A :=
  match m with
  | (t, inl e) => let '(t', r) := h e in (t ++ t', r)
  | (t, inr x) => (t, inr x)
  end.

Definition console_error (label : string) (e : Exn) : Eff unit :=
  ([ConsoleError label e], inr tt).

Notation "'let*' x ':=' m 'in' k" := (bind m (fun x => k))
  (at level 10, x name, m at level 100, k at level 200).
Notation "'do*' m 'in' k" := (bind m (fun _ => k))
  (at level 10, m at level 100, k at level 200).

Definition trace {A} (m : Eff A) : list Event := fst m.
Definition outcome {A} (m : Eff A) : Exn + A := snd m.

(** ** Constants for continuous streaming *)

Definition TARGET_SEGMENT_DURATION_SEC : Z := 60.
Definition WORDS_PER_MINUTE : Z := 145.

(** [Math.round] of a rational: the nearest integer, halves upwards. *)
Definition Math_round (q : Q) : Z := Qfloor (q + (1 # 2))%Q.

(** [(60 / 60) * 145] is exact in doubles too: every value on the way is a
    small integer. *)
Definition WORDS_PER_SEGMENT : Z :=
  Math_round ((inject_Z TARGET_SEGMENT_DURATION_SEC / 60) * inject_Z WORDS_PER_MINUTE)%Q.

Definition getStyleInstruction (style : string) : string :=
  if String.eqb style "NOIR" then
    "Style: Noir Thriller. Gritty, cynical, atmospheric. Use inner monologue. The traveler is a detective or someone with a troubled past. The city is a character itselfâ€”dark, rainy, hiding secrets. Use metaphors of shadows, smoke, and cold neon."
  else if String.eqb style "CHILDREN" then
    "Style: Children's Story. Whimsical, magical, full of wonder and gentle humor. The world is bright and alive; maybe inanimate objects (like traffic lights or trees) have slight personalities. Simple but evocative language. A sense of delightful discovery."
  else if String.eqb style "HISTORICAL" then
    "Style: Historical Epic. Grandiose, dramatic, and timeless. Treat the journey as a significant pilgrimage or quest in a bygone era (even though it's modern day, overlay it with historical grandeur). Use slightly archaic but understandable language. Focus on endurance, destiny, and the weight of history."
  else if String.eqb style "FANTASY" then
    "Style: Fantasy Adventure. Heroic, mystical, and epic. The real world is just a veil over a magical realm. Streets are ancient paths, buildings are towers or ruins. The traveler is on a vital quest. Use metaphors of magic, mythical creatures (shadows might be lurking beasts), and destiny."
  else if String.eqb style "HISTORY_PODCAST" then
    "Style: Informative History Podcast. You are a charismatic, knowledgeable podcast host. Your goal is to educate the listener about the history, culture, and landmarks of the specific area they are currently traveling through. Use a warm, engaging tone. Mention real dates, names, and events. Be conversational but informative."
  else
    "Style: Immersive, 'in the moment' narration. Focus on the sensation of movement and the immediate environment.".

(** ** Array primitives *)

(** The largest length a JavaScript array can have, [2^32 - 1]. *)
Definition MAX_ARRAY_LENGTH : Z := 4294967295.

Definition len {A} (l : list A) : Z := Z.of_nat (length l).

(** [a.slice(0, e)]: a negative [e] counts from the end. *)
Definition slice0 {A} (a : list A) (e : Z) : list A :=
  let k := if e <? 0 then Z.max (len a + e) 0 else Z.min e (len a) in
  take (Z.to_nat k) a.

(** [a?.[0]]: the first element, [undefined] on an empty array. *)
Definition first {A} (a : list A) : option A := a !! 0%nat.

(** [s.slice(-n)] on a string: its last [n] code units. *)
Definition slice_last (n : nat) (s : string) : string :=
  String.substring (String.length s - n) n s.

(** ** Pattern matching on the mime type *)

Definition is_digit (c : ascii) : bool :=
  let n := nat_of_ascii c in ((48 <=? n) && (n <=? 57))%nat.

(** The longest run of decimal digits at the start of [s]: what a greedy
    [\d+] (or [\d*]) consumes there. *)
Fixpoint digits_prefix (s : string) : string :=
  match s with
  | String c s' => if is_digit c then String c (digits_prefix s') else ""
  | EmptyString => ""
  end.

(** [s] without the prefix [p], when it starts with [p]. *)
Fixpoint strip_prefix (p s : string) : option string :=
  match p, s with
  | EmptyString, _ => Some s
  | String a p', String b s' => if Ascii.eqb a b then strip_prefix p' s' else None
  | String _ _, EmptyString => None
  end.

(** [s.match(/rate=(\d+)/)]: capture group 1 of the leftmost match, [None]
    when the pattern matches nowhere. *)
Fixpoint match_rate (s : string) : option string :=
  match s with
  | EmptyString => None
  | String _ s' =>
      match strip_prefix "rate=" s with
      | Some rest =>
          match digits_prefix rest with
          | EmptyString => match_rate s'
          | ds => Some ds
          end
      | None => match_rate s'
      end
  end.

Definition digit_value (c : ascii) : Z := Z.of_nat (nat_of_ascii c) - 48.

(** [parseInt(ds, 10)] on a string of decimal digits: the integer the digits
    denote. The runtime returns that integer rounded to a double; the two
    agree on every run of up to 15 digits (below [2^53]). *)
Definition parseInt10 (ds : string) : Z :=
  fold_left (fun acc c => 10 * acc + digit_value c) (list_ascii_of_string ds) 0.

Section Service.

Context (host : Host).

Definition call (r : Request) : Eff Response :=
  ([ApiCall r], generateContent host r).

(** [Array(n).fill(x)]: [Array(n)] throws a [RangeError] unless [n] is an
    integer between 0 and [2^32 - 1]; for such an [n] the engine builds the
    array if it has the room. *)
Definition Array_fill {A} (n : Z) (x : A) : Eff (list A) :=
  if (0 <=? n) && (n <=? MAX_ARRAY_LENGTH)
  then match Array_refused host n with
       | None => ret (repeat x (Z.to_nat n))
       | Some e => throw e
       end
  else throw (RangeError "Invalid array length").

Definition OUTLINE_PLACEHOLDER : Json :=
  JStr "Continue the journey towards the destination.".

(** The loop [while (outline.length < totalSegments) outline.push(..)]
    (lines 85-87). [push] throws a [RangeError] when the new length would
    no longer be an array length, and what the engine throws when it has no
    room for one element more. The loop ends: each turn brings the length
    one closer to [totalSegments], or [push] throws. *)
Equations? pad_outline (outline : list Json) (totalSegments : Z) : Eff (list Json)
  by wf (Z.to_nat (totalSegments - len outline)) lt :=
  pad_outline outline totalSegments with Z_lt_dec (len outline) totalSegments := {
    | left Hlt =>
        if len outline <? MAX_ARRAY_LENGTH
        then match push_refused host (len outline) with
             | None => pad_outline (outline ++ [OUTLINE_PLACEHOLDER]) totalSegments
             | Some e => throw e
             end
        else throw (RangeError "Invalid array length")
    | right _ => ret outline }.
Proof.
  unfold len in *. rewrite length_app. cbn [length]. lia.
Qed.

Definition useSearchFor (route : RouteDetails) : bool :=
  String.eqb (storyStyle route) "HISTORY_PODCAST".

Definition modelFor (useSearch : bool) : string :=
  if useSearch then "gemini-3-pro-preview" else "gemini-3-flash-preview".

Definition outlinePrompt (route : RouteDetails) (totalSegments : Z) : string :=
  let styleInstruction := getStyleInstruction (storyStyle route) in
  let useSearch := useSearchFor route in
  String.concat "" [
    nl;
    "    You are an expert storyteller. Write an outline for a story that is exactly ";
    numberToString host totalSegments; " chapters long."; nl;
    "    ";
    (if useSearch
     then "This is a history podcast. Plan each segment to cover a specific historical era or major landmark along the route."
     else "The story should have a complete cohesive story arc with a clear set up, inciting incident, rising action, climax, success, falling action, and resolution.");
    nl; nl;
    "    Journey: "; startAddress route; " to "; endAddress route; " by ";
    toLowerCase host (travelMode route); "."; nl;
    "    Total Duration: Approx "; routeDuration route; "."; nl;
    "    Total Narrative Segments needed: "; numberToString host totalSegments; "."; nl;
    "    "; nl;
    "    "; styleInstruction; nl; nl;
    "    Output strictly valid JSON: An array of "; numberToString host totalSegments;
    " strings. Example: ["; dq; "Chapter 1 summary..."; dq; ", "; dq;
    "Chapter 2 summary..."; dq; ", ...]"; nl;
    "    " ].

Definition outlineRequest (route : RouteDetails) (totalSegments : Z) : Request :=
  let useSearch := useSearchFor route in
  {| model := modelFor useSearch;
     contents := Prompt (outlinePrompt route totalSegments);
     config := {| responseMimeType := Some "application/json";
                  tools := if useSearch then Some [GoogleSearch] else None;
                  responseModalities := None;
                  voiceName := None |} |}.

Definition OUTLINE_FALLBACK : Json :=
  JStr "Continue the immersive narrative of the journey.".

Definition generateStoryOutline (route : RouteDetails) (totalSegments : Z)
  : Eff (list Json) :=
  try_catch
    (let* response := call (outlineRequest route totalSegments) in
     let text := trim host <$> respText response in
     match text with
     | Some text =>
         if String.eqb text "" then throw (Error "No outline generated.") else
         let* outline := lift (JSON_parse host text) in
         match outline with
         | JArr (x :: l) =>
             let* outline := pad_outline (x :: l) totalSegments in
             ret (slice0 outline totalSegments)
         | _ => throw (Error "Invalid outline format received.")
         end
     | None => throw (Error "No outline generated.")
     end)
    (fun error =>
       do* console_error "Outline Generation Error:" error in
       Array_fill totalSegments OUTLINE_FALLBACK).

(** The body of [chunks.forEach(..)]: a chunk contributes a source when its
    [web.uri] and [web.title] are both truthy and no source recorded so far
    has that URI. *)
Definition addSource (sources : list StorySource) (chunk : GroundingChunk)
  : list StorySource :=
  let u := web chunk ?. webUri in
  let t := web chunk ?. webTitle in
  if truthy u && truthy t then
    match u, t with
    | Some u, Some t =>
        match find (fun s => String.eqb (uri s) u) sources with
        | Some _ => sources
        | None => sources ++ [ {| title := t; uri := u |} ]
        end
    | _, _ => sources
    end
  else sources.

Definition collectSources (chunks : option (list GroundingChunk)) : list StorySource :=
  match chunks with
  | Some chunks => fold_left addSource chunks []
  | None => []
  end.

Definition segmentPrompt (route : RouteDetails) (segmentIndex totalSegmentsEstimate : Z)
    (segmentOutline previousContext : string) : string :=
  let isFirst := segmentIndex =? 1 in
  let useSearch := useSearchFor route in
  let contextPrompt :=
    if negb isFirst then
      String.concat "" [
        nl;
        "      PREVIOUS NARRATIVE CONTEXT (The story so far):"; nl;
        "      ..."; slice_last 1500 previousContext; " "; nl;
        "      (CONTINUE SEAMLESSLY from the above. Do not repeat it.)"; nl;
        "      " ]
    else "" in
  let styleInstruction := getStyleInstruction (storyStyle route) in
  String.concat "" [
    nl;
    "    You are an AI storytelling engine generating a continuous, immersive audio stream for a traveler."; nl;
    "    Journey: "; startAddress route; " to "; endAddress route; " by ";
    toLowerCase host (travelMode route); "."; nl;
    "    Current Status: Segment "; numberToString host segmentIndex; " of approx ";
    numberToString host totalSegmentsEstimate; "."; nl;
    "    "; nl;
    "    "; styleInstruction; nl; nl;
    "    CURRENT CHAPTER GOAL: "; segmentOutline; nl;
    "    ";
    (if useSearch
     then "CRITICAL: Use your search tool to find actual historical facts, names of historical figures, or interesting trivia about the current path."
     else "");
    nl; nl;
    "    "; contextPrompt; nl; nl;
    "    Task: Write the next ~"; numberToString host TARGET_SEGMENT_DURATION_SEC;
    " seconds of narration (approx "; numberToString host WORDS_PER_SEGMENT; " words)."; nl;
    "    IMPORTANT: Output ONLY the raw narration text for this segment."; nl;
    "  " ].

Definition segmentRequest (route : RouteDetails) (segmentIndex totalSegmentsEstimate : Z)
    (segmentOutline previousContext : string) : Request :=
  let useSearch := useSearchFor route in
  {| model := modelFor useSearch;
     contents := Prompt (segmentPrompt route segmentIndex totalSegmentsEstimate
                                       segmentOutline previousContext);
     config := {| responseMimeType := None;
                  tools := if useSearch then Some [GoogleSearch] else None;
                  responseModalities := None;
                  voiceName := None |} |}.

(** [previousContext] is the optional fifth argument, [""] when omitted. *)
Definition generateSegment (route : RouteDetails) (segmentIndex totalSegmentsEstimate : Z)
    (segmentOutline : string) (previousContext : option string) : Eff StorySegment :=
  let previousContext := default "" previousContext in
  try_catch
    (let* response := call (segmentRequest route segmentIndex totalSegmentsEstimate
                                           segmentOutline previousContext) in
     let text := trim host <$> respText response in
     match text with
     | Some text =>
         if String.eqb text "" then throw (Error "No text generated for segment.") else
         let chunks :=
           candidates response ?. first ?. groundingMetadata ?. groundingChunks in
         let sources := collectSources chunks in
         ret (mkSegment segmentIndex text None
                        (if 0 <? len sources then Some sources else None))
     | None => throw (Error "No text generated for segment.")
     end)
    (fun error =>
       do* console_error
             (String.concat "" ["Segment "; numberToString host segmentIndex;
                                " Text Generation Error:"]) error in
       throw error).

Definition DEFAULT_MIME_TYPE : string := "audio/pcm;rate=24000".

(** Lines 192-194: the sample rate read off the part's mime type. *)
Definition sampleRateOf (mime : option string) : Z :=
  let mimeType := if truthy mime then default "" mime else DEFAULT_MIME_TYPE in
  match match_rate mimeType with
  | Some digits => parseInt10 digits
  | None => 24000
  end.

Definition audioRequest (text voiceName : string) : Request :=
  {| model := "gemini-2.5-flash-preview-tts";
     contents := Parts text;
     config := {| responseMimeType := None;
                  tools := None;
                  responseModalities := Some [AUDIO];
                  voiceName := Some voiceName |} |}.

(** [response.candidates?.[0]?.content?.parts?.[0]] *)
Definition firstPart (response : Response) : option Part :=
  candidates response ?. first ?. content ?. parts ?. first.

(** [voiceName] is the optional third argument, ['Kore'] when omitted. *)
Definition generateSegmentAudio (text : string) (audioContext : AudioContext)
    (voiceName : option string) : Eff AudioBuffer :=
  let voiceName := default "Kore" voiceName in
  try_catch
    (let* response := call (audioRequest text voiceName) in
     let part := firstPart response in
     let audioData := part ?. inlineData ?. data in
     match audioData with
     | Some audioData =>
         if String.eqb audioData "" then throw (Error "No audio data received from Gemini TTS.") else
         let sampleRate := sampleRateOf (part ?. inlineData ?. mimeType) in
         let* pcm := lift (base64ToArrayBuffer host audioData) in
         let* wavArrayBuffer := lift (pcmToWav host pcm sampleRate) in
         lift (decodeAudioData audioContext wavArrayBuffer)
     | None => throw (Error "No audio data received from Gemini TTS.")
     end)
    (fun error =>
       do* console_error "Audio Generation Error:" error in
       throw error).

(** ** Vocabulary of the statements *)

(** The requests sent to the model, in order. *)
Definition requests (t : list Event) : list Request :=
  omap (fun e => match e with ApiCall r => Some r | ConsoleError _ _ => None end) t.

Definition raises {A} (m : Eff A) : Prop := ∃ e, outcome m = inl e.

(** Outline generation fails, and [e] is the error it fails with: the model
    call throws [e]; or it returns no text; or the text is not JSON
    ([JSON.parse] throws [e]); or it is the JSON of something else than a
    non-empty array. *)
Inductive OutlineFailure (route : RouteDetails) (totalSegments : Z) : Exn → Prop :=
| outline_call_throws e :
    generateContent host (outlineRequest route totalSegments) = inl e →
    OutlineFailure route totalSegments e
| outline_no_text response :
    generateContent host (outlineRequest route totalSegments) = inr response →
    truthy (trim host <$> respText response) = false →
    OutlineFailure route totalSegments (Error "No outline generated.")
| outline_not_json response t e :
    generateContent host (outlineRequest route totalSegments) = inr response →
    trim host <$> respText response = Some t → t ≠ "" →
    JSON_parse host t = inl e →
    OutlineFailure route totalSegments e
| outline_not_an_array response t j :
    generateContent host (outlineRequest route totalSegments) = inr response →
    trim host <$> respText response = Some t → t ≠ "" →
    JSON_parse host t = inr j → (∀ x l, j ≠ JArr (x :: l)) →
    OutlineFailure route totalSegments (Error "Invalid outline format received.").

(** The model's reply is usable: its trimmed text is the JSON of the
    non-empty array [reply]. *)
Definition OutlineReply (route : RouteDetails) (totalSegments : Z) (reply : list Json)
  : Prop :=
  ∃ response t,
    generateContent host (outlineRequest route totalSegments) = inr response ∧
    trim host <$> respText response = Some t ∧ t ≠ "" ∧
    JSON_parse host t = inr (JArr reply) ∧ reply ≠ [].

(** The engine has the room for [Array(n)]. *)
Definition canAllocate (n : Z) : Prop := Array_refused host n = None.

(** The engine has the room to bring an array to [n] elements by [push]. *)
Definition canGrowTo (n : Z) : Prop := ∀ k, 0 <= k < n → push_refused host k = None.

(** The model call fails, or its response carries no (non-blank) text. *)
Definition yieldsNoText (r : Request) : Prop :=
  match generateContent host r with
  | inl _ => True
  | inr response => truthy (trim host <$> respText response) = false
  end.

(** [part?.inlineData?.data] and [part?.inlineData?.mimeType] of the
    response's first part. *)
Definition audioDataOf (response : Response) : option string :=
  firstPart response ?. inlineData ?. data.
Definition mimeTypeOf (response : Response) : option string :=
  firstPart response ?. inlineData ?. mimeType.

(** The model call fails, or its response carries no audio data. *)
Definition yieldsNoAudio (r : Request) : Prop :=
  match generateContent host r with
  | inl _ => True
  | inr response => truthy (audioDataOf response) = false
  end.

(** Line 196-197 on their own: base64 decoding, WAV wrapping, decoding. *)
Definition wrapAndDecode (audioContext : AudioContext) (audioData : string)
    (sampleRate : Z) : Exn + AudioBuffer :=
  match base64ToArrayBuffer host audioData with
  | inr pcm =>
      match pcmToWav host pcm sampleRate with
      | inr wav => decodeAudioData audioContext wav
      | inl e => inl e
      end
  | inl e => inl e
  end.

(** The payload was received but turning it into an [AudioBuffer] fails. *)
Definition conversionFails (audioContext : AudioContext) (r : Request) : Prop :=
  ∃ response audioData e,
    generateContent host r = inr response ∧
    audioDataOf response = Some audioData ∧ audioData ≠ "" ∧
    wrapAndDecode audioContext audioData (sampleRateOf (mimeTypeOf response)) = inl e.

(** A grounding chunk that has both a web URI and a web title. *)
Definition cites (chunk : GroundingChunk) (u t : string) : Prop :=
  web chunk ?. webUri = Some u ∧ web chunk ?. webTitle = Some t ∧ u ≠ "" ∧ t ≠ "".

(** The grounding chunks of a response ([[]] when it has none). *)
Definition chunksOf (response : Response) : list GroundingChunk :=
  default [] (candidates response ?. first ?. groundingMetadata ?. groundingChunks).

End Service.

(** [needle] occurs in [s]. *)
Definition occurs (needle s : string) : Prop :=
  ∃ pre post, s = pre +:+ needle +:+ post.

Definition all_digits (s : string) : Prop :=
  Forall (fun c => is_digit c = true) (list_ascii_of_string s).

Definition starts_with_digit (s : string) : Prop :=
  ∃ c s', s = String c s' ∧ is_digit c = true.

(** [ds] is the run of digits the text of [m] shows after [rate=]: the full
    run of digits after an occurrence of [rate=], no earlier [rate=] being
    followed by a digit. Where in [m] the occurrence stands plays no part. *)
Definition rate_digits (m ds : string) : Prop :=
  ∃ pre rest,
    m = pre +:+ "rate=" +:+ ds +:+ rest ∧
    ds ≠ "" ∧ all_digits ds ∧ ¬ starts_with_digit rest ∧
    ∀ pre' rest', m = pre' +:+ "rate=" +:+ rest' → starts_with_digit rest' →
                  (String.length pre <= String.length pre')%nat.

(** ** Media types, by the words of the specification

    Written after the specification's words, for the service's pattern to
    be compared with (the service itself never splits the mime type). A
    mime type [type/subtype;name=value;...] carries the parameter [name]
    when one of the pieces after the first [;] is [name=value] (blanks
    before the name aside); the parameter is then [value]. *)

Fixpoint split_on (sep : ascii) (s : string) : list string :=
  match s with
  | EmptyString => [""]
  | String c s' =>
      if Ascii.eqb c sep then "" :: split_on sep s'
      else match split_on sep s' with
           | piece :: pieces => String c piece :: pieces
           | [] => [String c ""]
           end
  end.

Fixpoint skip_blanks (s : string) : string :=
  match s with
  | String c s' => if Ascii.eqb c " " then skip_blanks s' else s
  | EmptyString => s
  end.

Definition mime_parameter (name m : string) : option string :=
  head (omap (fun piece => strip_prefix (name +:+ "=") (skip_blanks piece))
             (tail (split_on ";" m))).

End Gemini.

Module Player.

(** ** Props, component state and the audio graph *)

Record AudioStory := mkStory {
  segments : list StorySegment;
  totalSegmentsEstimate : Z
}.

(** The props a render closes over (the route only feeds the markup). *)
Record Props := mkProps {
  story : AudioStory;
  isBackgroundGenerating : bool
}.

(** [AudioContext.state] *)
Inductive ContextState := suspended | running | closed.

(** An [AudioBufferSourceNode] created by [playSegment]. [playing] holds from
    [start()] until the node is stopped or its buffer runs out. [onended] is
    the handler installed on the node, as the closure it is: the segment
    passed to [playSegment] and the props of the render that [playSegment]
    (and so the [handleSegmentEnd] it calls) belongs to. *)
Record SourceNode := mkNode {
  buffer : option AudioBuffer;
  startOffset : Q;
  playing : bool;
  onended : option (StorySegment * Props)
}.

Record State := mkState {
  (* useState *)
  isPlaying : bool;
  currentSegmentIndex : nat;
  isBuffering : bool;
  autoScroll : bool;
  (* useRef *)
  audioContextRef : option ContextState;
  sourceRef : option nat;
  startTimeRef : Q;
  segmentOffsetRef : Q;
  indexRef : nat;
  (* every source node created so far; [sourceRef] indexes this list *)
  nodes : list SourceNode;
  (* calls of [playSegment] suspended at [await resume()], oldest first *)
  resuming : list (StorySegment * Q * Props)
}.

(** What the browser supplies when a handler runs: [currentTime] of the
    audio context, the state a context created now would start in, and its
    arithmetic. A time is a finite double, here the rational it denotes;
    [a - b] in the code is [subtract a b], the difference as the runtime
    computes it (rounded to a double), of which nothing is assumed.
    Comparing two doubles is comparing the rationals they denote. *)
Record Env := mkEnv {
  currentTime : Q;
  initialState : ContextState;
  subtract : Q → Q → Q
}.

Definition initial : State :=
  mkState false 0%nat false true None None 0%Q 0%Q 0%nat [] [].

Definition setIsPlaying (v : bool) (s : State) : State :=
  mkState v (currentSegmentIndex s) (isBuffering s) (autoScroll s) (audioContextRef s)
    (sourceRef s) (startTimeRef s) (segmentOffsetRef s) (indexRef s) (nodes s) (resuming s).
Definition setCurrentSegmentIndex (v : nat) (s : State) : State :=
  mkState (isPlaying s) v (isBuffering s) (autoScroll s) (audioContextRef s)
    (sourceRef s) (startTimeRef s) (segmentOffsetRef s) (indexRef s) (nodes s) (resuming s).
Definition setIsBuffering (v : bool) (s : State) : State :=
  mkState (isPlaying s) (currentSegmentIndex s) v (autoScroll s) (audioContextRef s)
    (sourceRef s) (startTimeRef s) (segmentOffsetRef s) (indexRef s) (nodes s) (resuming s).
Definition setAutoScroll (v : bool) (s : State) : State :=
  mkState (isPlaying s) (currentSegmentIndex s) (isBuffering s) v (audioContextRef s)
    (sourceRef s) (startTimeRef s) (segmentOffsetRef s) (indexRef s) (nodes s) (resuming s).
Definition set_audioContextRef (v : option ContextState) (s : State) : State :=
  mkState (isPlaying s) (currentSegmentIndex s) (isBuffering s) (autoScroll s) v
    (sourceRef s) (startTimeRef s) (segmentOffsetRef s) (indexRef s) (nodes s) (resuming s).
Definition set_sourceRef (v : option nat) (s : State) : State :=
  mkState (isPlaying s) (currentSegmentIndex s) (isBuffering s) (autoScroll s) (audioContextRef s)
    v (startTimeRef s) (segmentOffsetRef s) (indexRef s) (nodes s) (resuming s).
Definition set_startTimeRef (v : Q) (s : State) : State :=
  mkState (isPlaying s) (currentSegmentIndex s) (isBuffering s) (autoScroll s) (audioContextRef s)
    (sourceRef s) v (segmentOffsetRef s) (indexRef s) (nodes s) (resuming s).
Definition set_segmentOffsetRef (v : Q) (s : State) : State :=
  mkState (isPlaying s) (currentSegmentIndex s) (isBuffering s) (autoScroll s) (audioContextRef s)
    (sourceRef s) (startTimeRef s) v (indexRef s) (nodes s) (resuming s).
Definition set_indexRef (v : nat) (s : State) : State :=
  mkState (isPlaying s) (currentSegmentIndex s) (isBuffering s) (autoScroll s) (audioContextRef s)
    (sourceRef s) (startTimeRef s) (segmentOffsetRef s) v (nodes s) (resuming s).
Definition set_nodes (v : list SourceNode) (s : State) : State :=
  mkState (isPlaying s) (currentSegmentIndex s) (isBuffering s) (autoScroll s) (audioContextRef s)
    (sourceRef s) (startTimeRef s) (segmentOffsetRef s) (indexRef s) v (resuming s).
Definition set_resuming (v : list (StorySegment * Q * Props)) (s : State) : State :=
  mkState (isPlaying s) (currentSegmentIndex s) (isBuffering s) (autoScroll s) (audioContextRef s)
    (sourceRef s) (startTimeRef s) (segmentOffsetRef s) (indexRef s) (nodes s) v.

(** ** The component's functions *)

(** [source.onended = null; try { source.stop() } catch (e) {}] on one node. *)
Definition silence (n : SourceNode) : SourceNode :=
  mkNode (buffer n) (startOffset n) false None.

(** A node whose buffer ran out: it stops playing, its handler stays. *)
Definition finish (n : SourceNode) : SourceNode :=
  mkNode (buffer n) (startOffset n) false (onended n).

Definition stopAudio (s : State) : State :=
  match sourceRef s with
  | Some i => set_sourceRef None (set_nodes (alter silence i (nodes s)) s)
  | None => s
  end.

(** [playSegment] from [stopAudio()] on: the code that runs in one go once
    the context is known not to be suspended. *)
Definition startSource (closure : Props) (env : Env) (segment : StorySegment)
    (offset : Q) (s : State) : State :=
  let s := stopAudio s in
  let source := mkNode (audioBuffer segment) offset true (Some (segment, closure)) in
  let id := length (nodes s) in
  let s := set_sourceRef (Some id) (set_nodes (nodes s ++ [source]) s) in
  set_startTimeRef (subtract env (currentTime env) offset) s.

(** [if (!audioContextRef.current) audioContextRef.current = new AudioContextClass()] *)
Definition ensureContext (env : Env) (s : State) : State :=
  match audioContextRef s with
  | None => set_audioContextRef (Some (initialState env)) s
  | Some _ => s
  end.

(** [playSegment(segment, offset)], as far as it runs before yielding: with a
    suspended context it stops at [await resume()] and the rest is queued. *)
Definition playSegment (closure : Props) (env : Env) (segment : option StorySegment)
    (offset : Q) (s : State) : State :=
  match segment with
  | Some seg =>
      match audioBuffer seg with
      | Some _ =>
          let s := ensureContext env s in
          match audioContextRef s with
          | Some suspended => set_resuming (resuming s ++ [(seg, offset, closure)]) s
          | _ => startSource closure env seg offset s
          end
      | None => setIsBuffering true s
      end
  | None => setIsBuffering true s
  end.

Definition handleSegmentEnd (closure : Props) (env : Env) (s : State) : State :=
  let currentIndex := indexRef s in
  let nextIndex := (currentIndex + 1)%nat in
  let s := setCurrentSegmentIndex nextIndex s in
  let s := set_segmentOffsetRef 0%Q s in
  let next := segments (story closure) !! nextIndex in
  match next ?. audioBuffer with
  | Some _ => playSegment closure env next 0%Q s
  | None =>
      if (totalSegmentsEstimate (story closure) <=? Z.of_nat nextIndex)
         && negb (isBackgroundGenerating closure)
      then setIsPlaying false s
      else setIsBuffering true s
  end.

Definition togglePlayback (props : Props) (env : Env) (s : State) : State :=
  let currentSegment := segments (story props) !! currentSegmentIndex s in
  if isPlaying s then
    let s' :=
      match audioContextRef s with
      | Some _ =>
          if negb (isBuffering s)
          then set_segmentOffsetRef (subtract env (currentTime env) (startTimeRef s)) s
          else s
      | None => s
      end in
    let s' := stopAudio s' in
    let s' := setIsPlaying false s' in
    setAutoScroll false s'
  else
    let s' := setIsPlaying true s in
    match currentSegment ?. audioBuffer with
    | Some _ =>
        let s' := setIsBuffering false s' in
        let s' := playSegment props env currentSegment (segmentOffsetRef s) s' in
        setAutoScroll true s'
    | None => setIsBuffering true s'
    end.

(** The effect on [[story.segments, currentSegmentIndex, isBuffering, isPlaying]]. *)
Definition bufferReadyEffect (props : Props) (env : Env) (s : State) : State :=
  let segmentNowReady := segments (story props) !! currentSegmentIndex s in
  if isBuffering s && isPlaying s then
    match segmentNowReady ?. audioBuffer with
    | Some _ => playSegment props env segmentNowReady 0%Q (setIsBuffering false s)
    | None => s
    end
  else s.

(** The effect [indexRef.current = currentSegmentIndex]. *)
Definition syncIndexRef (s : State) : State := set_indexRef (currentSegmentIndex s) s.

(** The effects of one commit, in the order the component declares them. *)
Definition commit (props : Props) (env : Env) (s : State) : State :=
  bufferReadyEffect props env (syncIndexRef s).

(** The [onended] handler of node [i] firing because its buffer ran out. *)
Definition sourceEnded (i : nat) (env : Env) (s : State) : Exn + State :=
  match nodes s !! i with
  | Some n =>
      if playing n then
        let s := set_nodes (alter finish i (nodes s)) s in
        match onended n with
        | Some (segment, closure) =>
            match audioBuffer segment with
            | Some b =>
                match audioContextRef s with
                | Some _ =>
                    let elapsed := subtract env (currentTime env) (startTimeRef s) in
                    if Qle_bool (subtract env (duration b) (1 # 2)) elapsed
                    then inr (handleSegmentEnd closure env s)
                    else inr s
                | None => inr s
                end
            | None => inl (TypeError "Cannot read properties of null (reading 'duration')")
            end
        | None => inr s
        end
      else inr s
  | None => inr s
  end.

(** The promise of the oldest pending [resume()] fulfils (or rejects, on a
    context closed in the meantime) and that call of [playSegment] goes on. *)
Definition resumed (env : Env) (s : State) : State :=
  match resuming s with
  | (segment, offset, closure) :: rest =>
      let s := set_resuming rest s in
      match audioContextRef s with
      | Some closed => s
      | Some _ => startSource closure env segment offset (set_audioContextRef (Some running) s)
      | None => s
      end
  | [] => s
  end.

(** The cleanup of the mount effect. *)
Definition unmount (s : State) : State :=
  let s := stopAudio s in
  match audioContextRef s with
  | Some _ => set_audioContextRef (Some closed) s
  | None => s
  end.

(** ** The component as a transition system *)

Inductive Action :=
| Click               (* the play / pause button *)
| ClickAutoScroll     (* the auto-scroll button *)
| Ended (i : nat)     (* node [i] played to its end *)
| Resumed             (* a pending [resume()] settled *)
| Rerender            (* the parent passed new props *)
| Unmount.

Definition handle (props : Props) (env : Env) (a : Action) (s : State) : Exn + State :=
  match a with
  | Click => inr (togglePlayback props env s)
  | ClickAutoScroll => inr (setAutoScroll (negb (autoScroll s)) s)
  | Ended i => sourceEnded i env s
  | Resumed => inr (resumed env s)
  | Rerender => inr s
  | Unmount => inr (unmount s)
  end.

(** One turn of the event loop: the handler, then the render it causes and
    that render's effects, run with the props current at that time. *)
Definition dispatch (props : Props) (env : Env) (a : Action) (s : State) : Exn + State :=
  match handle props env a s with
  | inr s' => match a with Unmount => inr s' | _ => inr (commit props env s') end
  | inl e => inl e
  end.

Inductive reachable : State → Prop :=
| reach_mount : reachable initial
| reach_step props env a s s' :
    reachable s → dispatch props env a s = inr s' → reachable s'.

(** A run of the event loop: each turn comes with the props and the
    environment current at that time. *)
Fixpoint run (turns : list (Props * Env * Action)) (s : State) : Exn + State :=
  match turns with
  | [] => inr s
  | (props, env, a) :: turns =>
      match dispatch props env a s with
      | inr s' => run turns s'
      | inl e => inl e
      end
  end.

(** The state after a run from the mount (the mount state if it throws). *)
Definition after (turns : list (Props * Env * Action)) : State :=
  match run turns initial with
  | inr s => s
  | inl _ => initial
  end.

(** Every pending [resume()] settles, oldest first. *)
Fixpoint settle_n (k : nat) (env : Env) (s : State) : State :=
  match k with
  | O => s
  | S k => settle_n k env (resumed env s)
  end.

Definition settle (env : Env) (s : State) : State :=
  settle_n (length (resuming s)) env s.

(** ** Observations used in the statements *)

(** Node [i] is the source the player holds and it is playing [b] from
    [offset]. *)
Definition now_playing (s : State) (i : nat) (b : AudioBuffer) (offset : Q) : Prop :=
  sourceRef s = Some i ∧
  ∃ n, nodes s !! i = Some n ∧ playing n = true ∧ buffer n = Some b ∧ startOffset n = offset.

Definition active (s : State) (i : nat) : Prop :=
  ∃ n, nodes s !! i = Some n ∧ playing n = true.

End Player.

(** * Properties of the generation service *)

Module ServiceProofs.
Import Gemini.

Lemma len_app {A} (l k : list A) : len (l ++ k) = len l + len k.
Proof. unfold len. rewrite length_app. lia. Qed.

Lemma len_repeat {A} (x : A) (n : nat) : len (repeat x n) = Z.of_nat n.
Proof. unfold len. now rewrite repeat_length. Qed.

(** The padding loop leaves a long enough outline alone. *)
Lemma pad_outline_enough (host : Host) (l : list Json) (n : Z) :
  n <= len l → pad_outline host l n = ret l.
Proof.
  intros Hn. rewrite pad_outline_equation_1.
  destruct (Z_lt_dec (len l) n); [lia | reflexivity].
Qed.

(** One turn of the loop: the [push] finds room, or it does not. *)
Lemma pad_outline_push (host : Host) (l : list Json) (n : Z) :
  len l < n → len l < MAX_ARRAY_LENGTH →
  pad_outline host l n
  = match push_refused host (len l) with
    | None => pad_outline host (l ++ [OUTLINE_PLACEHOLDER]) n
    | Some e => throw e
    end.
Proof.
  intros Hn Hmax. rewrite pad_outline_equation_1.
  destruct (Z_lt_dec (len l) n) as [Hlt|]; [|lia]. cbn.
  apply Z.ltb_lt in Hmax. now rewrite Hmax.
Qed.

(** Where every [push] on the way finds room, the loop ends with [n]
    elements, the reply followed by placeholders. *)
Lemma pad_outline_short (host : Host) (l : list Json) (n : Z) :
  len l <= n <= MAX_ARRAY_LENGTH →
  (∀ k, len l <= k < n → push_refused host k = None) →
  pad_outline host l n = ret (l ++ repeat OUTLINE_PLACEHOLDER (Z.to_nat (n - len l))).
Proof.
  remember (Z.to_nat (n - len l)) as gap eqn:Hgap.
  revert l Hgap. induction gap as [|gap IH]; intros l Hgap Hn Hroom.
  - rewrite pad_outline_enough by lia. cbn. now rewrite app_nil_r.
  - rewrite pad_outline_equation_1.
    destruct (Z_lt_dec (len l) n) as [Hlt|]; [|lia]. cbn.
    destruct (len l <? MAX_ARRAY_LENGTH) eqn:Hmax.
    + rewrite (Hroom (len l)) by lia. rewrite IH.
      * rewrite <- app_assoc. reflexivity.
      * rewrite len_app. unfold len at 2. cbn. lia.
      * rewrite len_app. unfold len at 2. cbn. lia.
      * intros k Hk. apply Hroom. rewrite len_app in Hk. unfold len at 2 in Hk. cbn in Hk. lia.
    + apply Z.ltb_ge in Hmax. lia.
Qed.

(** The loop neither calls the model nor logs. *)
Lemma pad_outline_trace (host : Host) (l : list Json) (n : Z) :
  trace (pad_outline host l n) = [].
Proof.
  funelim (pad_outline host l n); clear Heqcall.
  - destruct (len outline <? MAX_ARRAY_LENGTH); [|reflexivity].
    destruct (push_refused host (len outline)); [reflexivity | assumption].
  - reflexivity.
Qed.

Lemma slice0_length {A} (l : list A) (n : Z) :
  0 <= n <= len l → len (slice0 l n) = n.
Proof.
  intros Hn. unfold slice0.
  destruct (n <? 0) eqn:Hneg; [apply Z.ltb_lt in Hneg; lia|].
  unfold len in *. rewrite length_take. lia.
Qed.

Lemma Array_fill_ok {A} (host : Host) (n : Z) (x : A) :
  0 <= n <= MAX_ARRAY_LENGTH → canAllocate host n →
  Array_fill host n x = ret (repeat x (Z.to_nat n)).
Proof.
  intros [H0 H1] Hroom. unfold Array_fill.
  apply Z.leb_le in H0, H1. now rewrite H0, H1, Hroom.
Qed.

(** *** Traces *)

Lemma trace_bind {A B} (m : Eff A) (k : A → Eff B) :
  trace (bind m k)
  = trace m ++ match outcome m with inr x => trace (k x) | inl _ => [] end.
Proof.
  destruct m as [t [e | x]]; cbn.
  - now rewrite app_nil_r.
  - now destruct (k x).
Qed.

Lemma trace_try_catch {A} (m : Eff A) (h : Exn → Eff A) :
  trace (try_catch m h)
  = trace m ++ match outcome m with inl e => trace (h e) | inr _ => [] end.
Proof.
  destruct m as [t [e | x]]; cbn.
  - now destruct (h e).
  - now rewrite app_nil_r.
Qed.

Lemma outcome_bind {A B} (m : Eff A) (k : A → Eff B) :
  outcome (bind m k)
  = match outcome m with inr x => outcome (k x) | inl e => inl e end.
Proof. destruct m as [t [e | x]]; cbn; [reflexivity | now destruct (k x)]. Qed.

Lemma outcome_try_catch {A} (m : Eff A) (h : Exn → Eff A) :
  outcome (try_catch m h)
  = match outcome m with inl e => outcome (h e) | inr x => inr x end.
Proof. destruct m as [t [e | x]]; cbn; [now destruct (h e) | reflexivity]. Qed.

Lemma requests_app (t u : list Event) : requests (t ++ u) = requests t ++ requests u.
Proof. unfold requests. apply omap_app. Qed.

Lemma Array_fill_trace {A} (host : Host) (n : Z) (x : A) :
  trace (Array_fill host n x) = [].
Proof.
  unfold Array_fill. destruct (_ && _); [|reflexivity].
  now destruct (Array_refused host n).
Qed.

(** *** The outline *)

Section Outline.

Context (host : Host) (route : RouteDetails) (totalSegments : Z).

Local Abbreviation request := (outlineRequest host route totalSegments).

(** What the [catch] block does with the error it caught. *)
Lemma outline_caught (t : list Event) (e : Exn) :
  try_catch (t, inl e)
    (fun error => do* console_error "Outline Generation Error:" error in
                  Array_fill host totalSegments OUTLINE_FALLBACK)
  = (t ++ ConsoleError "Outline Generation Error:" e
         :: trace (Array_fill host totalSegments OUTLINE_FALLBACK),
     outcome (Array_fill host totalSegments OUTLINE_FALLBACK)).
Proof.
  cbn. destruct (Array_fill host totalSegments OUTLINE_FALLBACK) as [t' r]. reflexivity.
Qed.

(** On a failure the function logs the error it failed with and evaluates
    [Array(totalSegments).fill(..)]. *)
Lemma outline_failure_path (e : Exn) :
  OutlineFailure host route totalSegments e →
  generateStoryOutline host route totalSegments
  = ([ApiCall request; ConsoleError "Outline Generation Error:" e]
       ++ trace (Array_fill host totalSegments OUTLINE_FALLBACK),
     outcome (Array_fill host totalSegments OUTLINE_FALLBACK)).
Proof.
  intros Hfail. unfold generateStoryOutline, call.
  destruct Hfail as [e He | response Hr Hno | response t e Hr Ht Hne Hj
                    | response t j Hr Ht Hne Hj Hbad];
    cbn [bind]; rewrite ?He, ?Hr.
  - now rewrite outline_caught.
  - destruct (trim host <$> respText response) as [t|] eqn:Ht.
    + cbn in Hno. apply negb_false_iff in Hno. rewrite Hno.
      cbn [throw app]. now rewrite outline_caught.
    + cbn [throw app]. now rewrite outline_caught.
  - rewrite Ht. apply String.eqb_neq in Hne. rewrite Hne.
    unfold lift. cbn [bind]. rewrite Hj. cbn [app]. now rewrite outline_caught.
  - rewrite Ht. apply String.eqb_neq in Hne. rewrite Hne.
    unfold lift. cbn [bind]. rewrite Hj.
    destruct j as [| | | | [|x l] |];
      try (cbn [bind throw app]; now rewrite outline_caught).
    now destruct (Hbad x l).
Qed.

(** On a usable reply, where the engine has the room to pad it, the
    function returns the reply padded and cut to [totalSegments] elements,
    and logs nothing. *)
Lemma outline_success_path (reply : list Json) :
  0 <= totalSegments <= MAX_ARRAY_LENGTH → canGrowTo host totalSegments →
  OutlineReply host route totalSegments reply →
  generateStoryOutline host route totalSegments
  = ([ApiCall request],
     inr (take (Z.to_nat totalSegments)
               (reply ++ repeat OUTLINE_PLACEHOLDER (Z.to_nat (totalSegments - len reply))))).
Proof.
  intros Hn Hroom (response & t & Hr & Ht & Hne & Hj & Hreply).
  destruct reply as [|x l]; [contradiction|].
  unfold generateStoryOutline, call.
  cbn [bind]. rewrite Hr, Ht.
  apply String.eqb_neq in Hne. rewrite Hne. unfold lift. rewrite Hj. cbn [bind].
  destruct (Z_lt_dec (len (x :: l)) totalSegments) as [Hlt | Hge].
  - rewrite pad_outline_short; [|lia|].
    2:{ intros k Hk. apply Hroom. unfold len in Hk. lia. }
    cbn [bind ret try_catch app].
    unfold slice0. destruct (totalSegments <? 0) eqn:Hneg; [apply Z.ltb_lt in Hneg; lia|].
    rewrite Z.min_l; [reflexivity|].
    unfold len in *. cbn [length] in *. rewrite length_app, repeat_length. lia.
  - rewrite pad_outline_enough by lia. cbn [bind ret try_catch app].
    unfold slice0. destruct (totalSegments <? 0) eqn:Hneg; [apply Z.ltb_lt in Hneg; lia|].
    rewrite Z.min_l by lia.
    replace (Z.to_nat (totalSegments - len (x :: l))) with 0%nat by lia.
    cbn [repeat]. now rewrite app_nil_r.
Qed.

(** Outline generation either fails, in the sense above, or yields a usable
    reply. *)
Lemma outline_cases :
  (∃ e, OutlineFailure host route totalSegments e) ∨
  (∃ reply, OutlineReply host route totalSegments reply).
Proof.
  destruct (generateContent host request) as [e | response] eqn:Hr.
  { left. exists e. eapply outline_call_throws. exact Hr. }
  destruct (trim host <$> respText response) as [t|] eqn:Ht.
  2:{ left. eexists. eapply outline_no_text; [exact Hr | now rewrite Ht]. }
  destruct (String.eqb t "") eqn:Hemp.
  { left. eexists. eapply outline_no_text; [exact Hr | rewrite Ht; cbn; now rewrite Hemp]. }
  apply String.eqb_neq in Hemp.
  destruct (JSON_parse host t) as [e | j] eqn:Hj.
  { left. exists e. eapply outline_not_json; eassumption. }
  destruct j as [| | | | [|x l] |];
    try (left; eexists; eapply outline_not_an_array; [exact Hr | exact Ht | exact Hemp
                                                      | exact Hj | discriminate]).
  right. exists (x :: l), response, t. repeat split; try assumption. discriminate.
Qed.

(** The two cases exclude each other, and the reply is the model's. *)
Lemma reply_not_failure (reply : list Json) (e : Exn) :
  OutlineReply host route totalSegments reply →
  ¬ OutlineFailure host route totalSegments e.
Proof.
  intros (response & t & Hr & Ht & Hne & Hj & Hreply) Hfail.
  destruct Hfail as [e' He | r' Hr' Hno | r' t' e' Hr' Ht' Hne' Hj'
                    | r' t' j Hr' Ht' Hne' Hj' Hbad].
  - congruence.
  - assert (r' = response) as -> by congruence.
    rewrite Ht in Hno. cbn in Hno. apply negb_false_iff, String.eqb_eq in Hno.
    contradiction.
  - assert (r' = response) as -> by congruence.
    assert (t' = t) as -> by congruence. congruence.
  - assert (r' = response) as -> by congruence.
    assert (t' = t) as -> by congruence.
    destruct reply as [|x l]; [contradiction|].
    apply (Hbad x l). congruence.
Qed.

Lemma reply_unique (reply reply' : list Json) :
  OutlineReply host route totalSegments reply →
  OutlineReply host route totalSegments reply' → reply = reply'.
Proof.
  intros (response & t & Hr & Ht & _ & Hj & _) (r' & t' & Hr' & Ht' & _ & Hj' & _).
  assert (r' = response) as -> by congruence.
  assert (t' = t) as -> by congruence. congruence.
Qed.

End Outline.

(** C1 (as amended). Whenever outline generation fails (the model call
    throws, returns no text, or returns something that is not a non-empty
    array) and [totalSegments] is a length the engine can allocate an array
    of (an integer from 0 to [2^32 - 1] that it has the room for),
    [generateStoryOutline] does not throw: it returns [totalSegments] copies
    of the fallback placeholder, having called the model once and logged the
    error the generation failed with. *)
Theorem outline_fallback_on_failure (host : Host) (route : RouteDetails)
    (totalSegments : Z) (e : Exn) :
  0 <= totalSegments <= MAX_ARRAY_LENGTH → canAllocate host totalSegments →
  OutlineFailure host route totalSegments e →
  generateStoryOutline host route totalSegments
  = ([ApiCall (outlineRequest host route totalSegments);
      ConsoleError "Outline Generation Error:" e],
     inr (repeat OUTLINE_FALLBACK (Z.to_nat totalSegments))).
Proof.
  intros Hn Hroom Hfail.
  rewrite (outline_failure_path host route totalSegments e Hfail).
  now rewrite Array_fill_ok.
Qed.

(** C9 (as amended). For every [totalSegments] from 1 to [2^32 - 1] that the
    engine has the room for (to allocate an array of that length, and to
    grow a shorter one to it), the array returned by [generateStoryOutline]
    has exactly [totalSegments] elements, whether the model's reply was
    usable (a shorter reply is padded with the fixed placeholder, a longer
    one cut) or not (the fallback); and one of the two is the case. *)
Theorem outline_length (host : Host) (route : RouteDetails) (totalSegments : Z) :
  1 <= totalSegments <= MAX_ARRAY_LENGTH →
  canAllocate host totalSegments → canGrowTo host totalSegments →
  ∃ outline,
    outcome (generateStoryOutline host route totalSegments) = inr outline ∧
    len outline = totalSegments ∧
    (∀ e, OutlineFailure host route totalSegments e →
       outline = repeat OUTLINE_FALLBACK (Z.to_nat totalSegments)) ∧
    (∀ reply, OutlineReply host route totalSegments reply →
       outline = take (Z.to_nat totalSegments)
                   (reply ++ repeat OUTLINE_PLACEHOLDER (Z.to_nat (totalSegments - len reply)))) ∧
    ((∃ e, OutlineFailure host route totalSegments e) ∨
     (∃ reply, OutlineReply host route totalSegments reply)).
Proof.
  intros Hn Halloc Hgrow.
  destruct (outline_cases host route totalSegments) as [[e Hfail] | [reply Hreply]].
  - exists (repeat OUTLINE_FALLBACK (Z.to_nat totalSegments)).
    rewrite (outline_failure_path host route totalSegments e Hfail).
    rewrite Array_fill_ok by (try lia; assumption).
    split; [reflexivity|]. split; [rewrite len_repeat; lia|].
    split; [reflexivity|]. split; [|left; now exists e].
    intros reply Hreply. now destruct (reply_not_failure host route totalSegments reply e).
  - rewrite (outline_success_path host route totalSegments reply)
      by (try lia; assumption).
    eexists. split; [reflexivity|]. split; [|split; [|split]].
    + destruct Hreply as (_ & _ & _ & _ & _ & _ & Hne).
      destruct reply as [|x l]; [contradiction|].
      unfold len in *. rewrite length_take, length_app, repeat_length. cbn [length] in *. lia.
    + intros e Hfail. now destruct (reply_not_failure host route totalSegments reply e).
    + intros reply' Hreply'.
      now rewrite (reply_unique host route totalSegments reply' reply Hreply' Hreply).
    + right. now exists reply.
Qed.

(** *** Model and tools *)

(** [generateStoryOutline] calls the model exactly once, with
    [outlineRequest]. *)
Lemma outline_requests (host : Host) (route : RouteDetails) (totalSegments : Z) :
  requests (trace (generateStoryOutline host route totalSegments))
  = [outlineRequest host route totalSegments].
Proof.
  unfold generateStoryOutline. rewrite trace_try_catch, trace_bind, outcome_bind.
  unfold call. cbn [trace outcome fst snd].
  destruct (generateContent host _) as [e | response].
  { rewrite trace_bind. cbn. now rewrite Array_fill_trace. }
  assert (Hbody : ∀ (m : Eff (list Json)),
            trace m = [] →
            requests (([ApiCall (outlineRequest host route totalSegments)] ++ trace m) ++
              match outcome m with
              | inl e => trace (do* console_error "Outline Generation Error:" e in
                                Array_fill host totalSegments OUTLINE_FALLBACK)
              | inr _ => []
              end) = [outlineRequest host route totalSegments]).
  { intros m ->. destruct (outcome m); [|reflexivity].
    rewrite trace_bind. cbn. now rewrite Array_fill_trace. }
  apply Hbody.
  destruct (trim host <$> respText response) as [t|]; [|reflexivity].
  destruct (String.eqb t ""); [reflexivity|].
  rewrite trace_bind. unfold lift. cbn [trace outcome fst snd app].
  destruct (JSON_parse host t) as [e | [| | | | [|x l] |]]; try reflexivity.
  rewrite trace_bind, pad_outline_trace. cbn [app].
  now destruct (outcome (pad_outline _ _ _)).
Qed.

(** [generateSegment] calls the model exactly once, with [segmentRequest]. *)
Lemma segment_requests (host : Host) (route : RouteDetails) (segmentIndex estimate : Z)
    (segmentOutline : string) (previousContext : option string) :
  requests (trace (generateSegment host route segmentIndex estimate segmentOutline
                                   previousContext))
  = [segmentRequest host route segmentIndex estimate segmentOutline
                    (default "" previousContext)].
Proof.
  unfold generateSegment. rewrite trace_try_catch, trace_bind, outcome_bind.
  unfold call. cbn [trace outcome fst snd].
  destruct (generateContent host _) as [e | response]; [reflexivity|].
  destruct (trim host <$> respText response) as [t|]; [|reflexivity].
  now destruct (String.eqb t "").
Qed.

Lemma useSearchFor_spec (route : RouteDetails) :
  useSearchFor route = true ↔ storyStyle route = "HISTORY_PODCAST".
Proof. unfold useSearchFor. apply String.eqb_eq. Qed.

(** What a request built for [useSearch] asks for. *)
Definition asks_for_search (r : Request) : Prop :=
  model r = "gemini-3-pro-preview" ∧ tools (config r) = Some [GoogleSearch].
Definition asks_for_flash (r : Request) : Prop :=
  model r = "gemini-3-flash-preview" ∧ tools (config r) = None.

(** C10. The single request that [generateStoryOutline], and likewise
    [generateSegment], sends selects ['gemini-3-pro-preview'] and asks for
    the [googleSearch] tool exactly when the route's story style is
    ['HISTORY_PODCAST']; for every other style it selects
    ['gemini-3-flash-preview'] and asks for no tool. *)
Theorem search_iff_history_podcast (host : Host) (route : RouteDetails)
    (totalSegments segmentIndex estimate : Z) (segmentOutline : string)
    (previousContext : option string) :
  ∃ outlineReq segmentReq,
    requests (trace (generateStoryOutline host route totalSegments)) = [outlineReq] ∧
    requests (trace (generateSegment host route segmentIndex estimate segmentOutline
                                     previousContext)) = [segmentReq] ∧
    ∀ r, r = outlineReq ∨ r = segmentReq →
      (model r = "gemini-3-pro-preview" ↔ storyStyle route = "HISTORY_PODCAST") ∧
      (tools (config r) = Some [GoogleSearch] ↔ storyStyle route = "HISTORY_PODCAST") ∧
      (storyStyle route ≠ "HISTORY_PODCAST" → asks_for_flash r) ∧
      (storyStyle route = "HISTORY_PODCAST" → asks_for_search r).
Proof.
  eexists _, _. split; [apply outline_requests|]. split; [apply segment_requests|].
  pose proof (useSearchFor_spec route) as Hs.
  intros r [-> | ->]; unfold asks_for_flash, asks_for_search;
    cbn [model config tools outlineRequest segmentRequest modelFor];
    destruct (useSearchFor route); cbn;
    (repeat split; intros; try discriminate; try tauto;
     try (exfalso; intuition congruence)).
Qed.

(** *** Segments and their sources *)

Lemma segment_outcome (host : Host) (route : RouteDetails) (segmentIndex estimate : Z)
    (segmentOutline : string) (previousContext : option string) :
  outcome (generateSegment host route segmentIndex estimate segmentOutline previousContext)
  = match generateContent host (segmentRequest host route segmentIndex estimate
                                  segmentOutline (default "" previousContext)) with
    | inl e => inl e
    | inr response =>
        match trim host <$> respText response with
        | Some t =>
            if String.eqb t "" then inl (Error "No text generated for segment.")
            else inr (mkSegment segmentIndex t None
                        (let srcs := collectSources
                           (candidates response ?. first ?. groundingMetadata
                              ?. groundingChunks) in
                         if 0 <? len srcs then Some srcs else None))
        | None => inl (Error "No text generated for segment.")
        end
    end.
Proof.
  unfold generateSegment. rewrite outcome_try_catch, outcome_bind.
  unfold call. cbn [outcome snd].
  destruct (generateContent host _) as [e | response]; [reflexivity|].
  destruct (trim host <$> respText response) as [t|]; [|reflexivity].
  now destruct (String.eqb t "").
Qed.

Lemma addSource_cases (srcs : list StorySource) (chunk : GroundingChunk) :
  (∃ u t, cites chunk u t ∧ (u ∉ (uri <$> srcs)) ∧
          addSource srcs chunk = srcs ++ [mkSource t u])
  ∨ (addSource srcs chunk = srcs ∧ ∀ u t, cites chunk u t → u ∈ (uri <$> srcs)).
Proof.
  unfold addSource, cites.
  destruct (web chunk ?. webUri) as [u|] eqn:Hu; cbn [truthy andb].
  2:{ right. split; [reflexivity|]. intros ? ? [? _]. discriminate. }
  destruct (String.eqb u "") eqn:Hue; cbn [negb andb].
  { right. split; [reflexivity|]. intros u' t' (Hu' & _ & Hne & _).
    apply String.eqb_eq in Hue. congruence. }
  destruct (web chunk ?. webTitle) as [t|] eqn:Htt; cbn [truthy].
  2:{ right. split; [reflexivity|]. intros ? ? (_ & ? & _). discriminate. }
  destruct (String.eqb t "") eqn:Hte; cbn [negb].
  { right. split; [reflexivity|]. intros u' t' (_ & Ht' & _ & Hne).
    apply String.eqb_eq in Hte. congruence. }
  apply String.eqb_neq in Hue, Hte.
  destruct (find (fun s => String.eqb (uri s) u) srcs) as [s0|] eqn:Hfind.
  - right. split; [reflexivity|]. intros u' t' (Hu' & _).
    apply find_some in Hfind as [Hin Heq]. apply String.eqb_eq in Heq.
    assert (u' = u) as -> by congruence.
    apply list_elem_of_fmap. exists s0. split; [congruence | now apply list_elem_of_In].
  - left. exists u, t. repeat split; try assumption.
    intros (s0 & -> & Hin)%list_elem_of_fmap.
    apply list_elem_of_In in Hin.
    pose proof (find_none _ _ Hfind _ Hin) as Hno. cbn in Hno.
    now rewrite String.eqb_refl in Hno.
Qed.

(** What the [forEach] loop maintains, whatever it starts from. *)
Lemma collect_invariant (chunks : list GroundingChunk) (acc : list StorySource) :
  NoDup (uri <$> acc) →
  let r := fold_left addSource chunks acc in
  NoDup (uri <$> r) ∧
  (∀ u, u ∈ (uri <$> r) ↔ u ∈ (uri <$> acc) ∨ ∃ c t, c ∈ chunks ∧ cites c u t) ∧
  (∀ s, s ∈ r → s ∈ acc ∨ ∃ c, c ∈ chunks ∧ cites c (uri s) (title s)).
Proof.
  revert acc. induction chunks as [|chunk chunks IH]; intros acc Hnd; cbn [fold_left].
  - split; [exact Hnd|]. split.
    + intros u. split; [now left|].
      intros [? | (c & t & Hc & _)]; [assumption | now apply elem_of_nil in Hc].
    + intros s Hs. now left.
  - destruct (addSource_cases acc chunk) as [(u0 & t0 & Hc & Hfresh & ->) | [-> Hold]].
    + destruct (IH (acc ++ [mkSource t0 u0])) as (Hnd' & Hmem & Hfrom).
      { rewrite fmap_app. apply NoDup_app. repeat split; [assumption | | apply NoDup_singleton].
        intros x Hx ->%list_elem_of_singleton. contradiction. }
      repeat split; [exact Hnd' | | |].
      * intros Hu. apply Hmem in Hu as [Hu | (c & t & Hin & Hct)].
        -- rewrite fmap_app in Hu. apply elem_of_app in Hu as [Hu | Hu]; [now left|].
           apply list_elem_of_singleton in Hu. cbn in Hu. subst u.
           right. exists chunk, t0. split; [apply list_elem_of_here | exact Hc].
        -- right. exists c, t. split; [now apply list_elem_of_further | exact Hct].
      * intros [Hu | (c & t & Hin & Hct)]; apply Hmem.
        -- left. rewrite fmap_app. apply elem_of_app. now left.
        -- apply elem_of_cons in Hin as [-> | Hin].
           ++ left. rewrite fmap_app. apply elem_of_app. right.
              destruct Hc as (Hu0 & _), Hct as (Hu1 & _).
              assert (u = u0) as -> by congruence. apply list_elem_of_here.
           ++ right. now exists c, t.
      * intros s Hs. apply Hfrom in Hs as [Hs | (c & Hin & Hct)].
        -- apply elem_of_app in Hs as [Hs | ->%list_elem_of_singleton]; [now left|].
           right. exists chunk. split; [apply list_elem_of_here | exact Hc].
        -- right. exists c. split; [now apply list_elem_of_further | exact Hct].
    + destruct (IH acc Hnd) as (Hnd' & Hmem & Hfrom).
      repeat split; [exact Hnd' | | |].
      * intros Hu. apply Hmem in Hu as [Hu | (c & t & Hin & Hct)]; [now left|].
        right. exists c, t. split; [now apply list_elem_of_further | exact Hct].
      * intros [Hu | (c & t & Hin & Hct)]; apply Hmem; [now left|].
        apply elem_of_cons in Hin as [-> | Hin]; [left; eauto | right; now exists c, t].
      * intros s Hs. apply Hfrom in Hs as [Hs | (c & Hin & Hct)]; [now left|].
        right. exists c. split; [now apply list_elem_of_further | exact Hct].
Qed.

Lemma collectSources_chunksOf (response : Response) :
  collectSources (candidates response ?. first ?. groundingMetadata ?. groundingChunks)
  = fold_left addSource (chunksOf response) [].
Proof. unfold collectSources, chunksOf. now destruct (_ ?. groundingChunks). Qed.

(** C7. The sources of a segment returned by [generateSegment] hold no URI
    twice, hold exactly the URIs of the response's grounding chunks that
    have both a web URI and a web title (each entry being the title and URI
    of such a chunk), and the field is [undefined] exactly when no chunk
    has both. *)
Theorem sources_deduplicated (host : Host) (route : RouteDetails)
    (segmentIndex estimate : Z) (segmentOutline : string)
    (previousContext : option string) (segment : StorySegment) :
  outcome (generateSegment host route segmentIndex estimate segmentOutline previousContext)
    = inr segment →
  ∃ response,
    generateContent host (segmentRequest host route segmentIndex estimate segmentOutline
                            (default "" previousContext)) = inr response ∧
    (sources segment = None ↔ ¬ ∃ c u t, c ∈ chunksOf response ∧ cites c u t) ∧
    ∀ srcs, sources segment = Some srcs →
      NoDup (uri <$> srcs) ∧
      (∀ u, u ∈ (uri <$> srcs) ↔ ∃ c t, c ∈ chunksOf response ∧ cites c u t) ∧
      (∀ s, s ∈ srcs → ∃ c, c ∈ chunksOf response ∧ cites c (uri s) (title s)).
Proof.
  rewrite segment_outcome.
  destruct (generateContent host _) as [e | response]; [discriminate|].
  destruct (trim host <$> respText response) as [t|]; [|discriminate].
  destruct (String.eqb t ""); [discriminate|].
  intros [= <-]. exists response. split; [reflexivity|]. cbn [sources].
  rewrite collectSources_chunksOf.
  destruct (collect_invariant (chunksOf response) []) as (Hnd & Hmem & Hfrom);
    [apply NoDup_nil_2|].
  cbn zeta in Hnd, Hmem, Hfrom.
  set (r := fold_left addSource (chunksOf response) []) in *.
  assert (Hmem' : ∀ u, u ∈ (uri <$> r) ↔ ∃ c t, c ∈ chunksOf response ∧ cites c u t).
  { intros u. rewrite Hmem. split; [|now right].
    intros [Hu | ?]; [now apply elem_of_nil in Hu | assumption]. }
  assert (Hfrom' : ∀ s, s ∈ r → ∃ c, c ∈ chunksOf response ∧ cites c (uri s) (title s)).
  { intros s Hs. destruct (Hfrom s Hs) as [Hs' | ?]; [now apply elem_of_nil in Hs' | assumption]. }
  destruct r as [|s0 r'] eqn:Hr; cbn [len length].
  - split.
    + split; [|reflexivity]. intros _ (c & u & t' & Hc). 
      assert (Hu : u ∈ (uri <$> @nil StorySource)) by (apply Hmem'; eauto).
      now apply elem_of_nil in Hu.
    + discriminate.
  - replace (0 <? Z.of_nat (S (length r'))) with true by (symmetry; apply Z.ltb_lt; lia).
    split.
    + split; [discriminate|]. intros Hno. exfalso. apply Hno.
      destruct (Hfrom' s0) as (c & Hc & Hct); [apply list_elem_of_here|]. eauto.
    + intros srcs [= <-]. auto.
Qed.

(** *** Failures *)

Lemma audio_outcome (host : Host) (text : string) (audioContext : AudioContext)
    (voice : option string) :
  outcome (generateSegmentAudio host text audioContext voice)
  = match generateContent host (audioRequest text (default "Kore" voice)) with
    | inl e => inl e
    | inr response =>
        match audioDataOf response with
        | Some audioData =>
            if String.eqb audioData "" then inl (Error "No audio data received from Gemini TTS.")
            else wrapAndDecode host audioContext audioData (sampleRateOf (mimeTypeOf response))
        | None => inl (Error "No audio data received from Gemini TTS.")
        end
    end.
Proof.
  unfold generateSegmentAudio. rewrite outcome_try_catch, outcome_bind.
  unfold call, audioDataOf, mimeTypeOf, wrapAndDecode. cbn [outcome snd].
  destruct (generateContent host _) as [e | response]; [reflexivity|].
  destruct (firstPart response ?. inlineData ?. data) as [d|]; [|reflexivity].
  destruct (String.eqb d ""); [reflexivity|].
  rewrite !outcome_bind. unfold lift. cbn [outcome snd].
  destruct (base64ToArrayBuffer host d) as [e | pcm]; [reflexivity|].
  rewrite outcome_bind. cbn [outcome snd].
  destruct (pcmToWav host pcm _) as [e | wav]; [reflexivity|].
  now destruct (decodeAudioData audioContext wav).
Qed.

(** C2 (as amended). [generateSegment] raises an error exactly when the
    model call fails or yields no text. [generateSegmentAudio] raises an
    error exactly when the model call fails or yields no audio data, or when
    turning the received payload into an audio buffer (base64 decoding, WAV
    wrapping, [decodeAudioData]) fails. An error of the model call is
    rethrown as it is; neither function returns a value in these cases. *)
Theorem failures_propagate (host : Host) (route : RouteDetails)
    (segmentIndex estimate : Z) (segmentOutline : string)
    (previousContext : option string)
    (text : string) (audioContext : AudioContext) (voice : option string) :
  let segmentReq := segmentRequest host route segmentIndex estimate segmentOutline
                                   (default "" previousContext) in
  let audioReq := audioRequest text (default "Kore" voice) in
  let segment := generateSegment host route segmentIndex estimate segmentOutline
                                 previousContext in
  let audio := generateSegmentAudio host text audioContext voice in
  (raises segment ↔ yieldsNoText host segmentReq) ∧
  (raises audio ↔ yieldsNoAudio host audioReq ∨ conversionFails host audioContext audioReq) ∧
  (∀ e, generateContent host segmentReq = inl e → outcome segment = inl e) ∧
  (∀ e, generateContent host audioReq = inl e → outcome audio = inl e).
Proof.
  cbn zeta. unfold raises, yieldsNoText, yieldsNoAudio, conversionFails.
  rewrite segment_outcome, audio_outcome.
  repeat split.
  - destruct (generateContent host _) as [e | response]; [trivial|].
    destruct (trim host <$> respText response) as [t|]; cbn [truthy]; [|trivial].
    destruct (String.eqb t ""); [trivial|]. intros [e He]. discriminate.
  - destruct (generateContent host _) as [e | response]; [eauto|].
    destruct (trim host <$> respText response) as [t|]; cbn [truthy]; [|eauto].
    destruct (String.eqb t ""); [eauto|]. discriminate.
  - destruct (generateContent host _) as [e | response]; [now left|].
    destruct (audioDataOf response) as [d|] eqn:Hd; cbn [truthy]; [|now left].
    destruct (String.eqb d "") eqn:Hemp; [now left|].
    intros [e He]. right. exists response, d, e.
    apply String.eqb_neq in Hemp. auto.
  - intros [Hno | (response & d & e & Hr & Hd & Hne & Hconv)].
    + destruct (generateContent host _) as [e | response]; [eauto|].
      destruct (audioDataOf response) as [d|]; cbn [truthy] in *; [|eauto].
      destruct (String.eqb d ""); [eauto | discriminate].
    + rewrite Hr, Hd. apply String.eqb_neq in Hne. rewrite Hne. eauto.
  - intros e ->. reflexivity.
  - intros e ->. reflexivity.
Qed.

(** *** The sample rate *)

Lemma append_empty (s : string) : "" +:+ s = s.
Proof. reflexivity. Qed.

Lemma append_String (c : ascii) (s r : string) : String c s +:+ r = String c (s +:+ r).
Proof. reflexivity. Qed.

Lemma strip_prefix_Some (p s r : string) :
  strip_prefix p s = Some r ↔ s = p +:+ r.
Proof.
  revert s. induction p as [|a p IH]; intros s;
    rewrite ?append_empty, ?append_String; cbn [strip_prefix].
  - split; [intros [= ->] | intros ->]; reflexivity.
  - destruct s as [|b s]; [split; discriminate|].
    destruct (Ascii.eqb a b) eqn:Hab.
    + apply Ascii.eqb_eq in Hab as ->. rewrite IH.
      split; [intros -> | intros [= ->]]; reflexivity.
    + apply Ascii.eqb_neq in Hab. split; [discriminate | intros [= -> _]; contradiction].
Qed.

Lemma all_digits_cons (c : ascii) (s : string) :
  all_digits (String c s) ↔ is_digit c = true ∧ all_digits s.
Proof.
  unfold all_digits. cbn [list_ascii_of_string].
  split; [intros H; inversion H; auto | intros [? ?]; constructor; auto].
Qed.

Lemma digits_prefix_app (ds rest : string) :
  all_digits ds → ¬ starts_with_digit rest → digits_prefix (ds +:+ rest) = ds.
Proof.
  intros Hds Hrest. induction ds as [|c ds IH];
    rewrite ?append_empty, ?append_String; cbn [digits_prefix].
  - destruct rest as [|c rest]; [reflexivity|]. cbn [digits_prefix].
    destruct (is_digit c) eqn:Hc; [|reflexivity].
    destruct Hrest. now exists c, rest.
  - apply all_digits_cons in Hds as [-> Hds]. now rewrite IH.
Qed.

Lemma digits_prefix_empty (s : string) :
  digits_prefix s = "" → ¬ starts_with_digit s.
Proof.
  intros Hs (c & s' & -> & Hc). cbn in Hs. now rewrite Hc in Hs.
Qed.

(** The pattern finds the leftmost [rate=] that a digit follows and captures
    the whole run of digits. *)
Lemma match_rate_digits (m ds : string) :
  rate_digits m ds → match_rate m = Some ds.
Proof.
  intros (pre & rest & -> & Hne & Hds & Hrest & Hleft).
  induction pre as [|c pre IH].
  - change ("" +:+ "rate=" +:+ ds +:+ rest) with (String "r" ("ate=" +:+ ds +:+ rest)).
    cbn [match_rate].
    assert (Hs : strip_prefix "rate=" (String "r" ("ate=" +:+ ds +:+ rest))
                 = Some (ds +:+ rest)) by now apply strip_prefix_Some.
    rewrite Hs, digits_prefix_app by assumption.
    destruct ds; [contradiction | reflexivity].
  - assert (Hrec : match_rate (pre +:+ "rate=" +:+ ds +:+ rest) = Some ds).
    { apply IH. intros pre' rest' Heq Hdig.
      assert (Hle : (String.length (String c pre) <= String.length (String c pre'))%nat).
      { apply (Hleft (String c pre') rest'); [|exact Hdig].
        rewrite (append_String c pre), (append_String c pre'). now f_equal. }
      cbn [String.length] in Hle. lia. }
    change (String c pre +:+ "rate=" +:+ ds +:+ rest)
      with (String c (pre +:+ "rate=" +:+ ds +:+ rest)).
    cbn [match_rate].
    destruct (strip_prefix "rate=" (String c (pre +:+ "rate=" +:+ ds +:+ rest)))
      as [rest0|] eqn:Hs; [|exact Hrec].
    destruct (digits_prefix rest0) as [|d ds0] eqn:Hd; [exact Hrec|].
    exfalso. apply strip_prefix_Some in Hs.
    assert (Hdig : starts_with_digit rest0).
    { destruct rest0 as [|d' r0]; [discriminate|]. cbn in Hd.
      destruct (is_digit d') eqn:Hd'; [|discriminate]. now exists d', r0. }
    pose proof (Hleft "" rest0 Hs Hdig) as Hle.
    cbn [String.length] in Hle. lia.
Qed.

Lemma match_rate_absent (m : string) :
  ¬ occurs "rate=" m → match_rate m = None.
Proof.
  induction m as [|c m IH]; intros Hno; [reflexivity|].
  cbn [match_rate].
  assert (Hrec : match_rate m = None).
  { apply IH. intros (pre & post & ->). apply Hno. now exists (String c pre), post. }
  destruct (strip_prefix "rate=" (String c m)) as [rest|] eqn:Hs; [|exact Hrec].
  exfalso. apply strip_prefix_Some in Hs. apply Hno. now exists "", rest.
Qed.

Lemma digits_prefix_split (s : string) :
  ∃ rest, s = digits_prefix s +:+ rest ∧ all_digits (digits_prefix s) ∧
          ¬ starts_with_digit rest.
Proof.
  induction s as [|c s (rest & Heq & Hds & Hrest)]; cbn [digits_prefix].
  - exists "". repeat split; [constructor|]. intros (c & s' & [=] & _).
  - destruct (is_digit c) eqn:Hc.
    + exists rest. rewrite append_String, <- Heq. repeat split; [|exact Hrest].
      apply all_digits_cons. now split.
    + exists (String c s). repeat split; [constructor|].
      intros (c' & s' & [= <- <-] & Hc'). congruence.
Qed.

Lemma rate_digits_later (c : ascii) (m ds : string) :
  rate_digits m ds →
  (∀ rest', String c m = "rate=" +:+ rest' → ¬ starts_with_digit rest') →
  rate_digits (String c m) ds.
Proof.
  intros (pre & rest & Heq & Hne & Hds & Hrest & Hleft) Hhead.
  exists (String c pre), rest. rewrite append_String, <- Heq.
  repeat split; try assumption.
  intros [|c' pre'] rest' Heq' Hdig.
  - rewrite append_empty in Heq'. now destruct (Hhead rest' Heq').
  - rewrite append_String in Heq'. injection Heq' as <- Heq'.
    pose proof (Hleft pre' rest' Heq' Hdig). cbn [String.length]. lia.
Qed.

(** Conversely, what the pattern captures is the [rate=] parameter. *)
Lemma match_rate_sound (m ds : string) :
  match_rate m = Some ds → rate_digits m ds.
Proof.
  induction m as [|c m IH]; [discriminate|]. cbn [match_rate].
  destruct (strip_prefix "rate=" (String c m)) as [rest0|] eqn:Hs.
  - apply strip_prefix_Some in Hs.
    destruct (digits_prefix rest0) as [|d ds0] eqn:Hd.
    + intros Hrec. apply rate_digits_later; [now apply IH|].
      intros rest' Heq. rewrite Hs in Heq.
      assert (rest' = rest0) as ->.
      { symmetry in Heq. apply strip_prefix_Some in Heq.
        assert (Hs0 : strip_prefix "rate=" ("rate=" +:+ rest') = Some rest')
          by now apply strip_prefix_Some.
        congruence. }
      now apply digits_prefix_empty.
    + intros [= <-]. destruct (digits_prefix_split rest0) as (rest & Heq & Hds & Hrest).
      rewrite Hd in Heq, Hds. exists "", rest. rewrite append_empty, Hs.
      repeat split; try assumption; [now rewrite <- Heq | discriminate |].
      intros pre' rest' _ _. cbn [String.length]. lia.
  - intros Hrec. apply rate_digits_later; [now apply IH|].
    intros rest' Heq. apply strip_prefix_Some in Heq. congruence.
Qed.

Lemma match_rate_iff (m ds : string) :
  match_rate m = Some ds ↔ rate_digits m ds.
Proof. split; [apply match_rate_sound | apply match_rate_digits]. Qed.

Lemma match_rate_none (m : string) :
  match_rate m = None ↔ ∀ ds, ¬ rate_digits m ds.
Proof.
  split.
  - intros Hnone ds Hds. apply match_rate_digits in Hds. congruence.
  - intros Hno. destruct (match_rate m) as [ds|] eqn:Hm; [|reflexivity].
    now destruct (Hno ds (match_rate_sound m ds Hm)).
Qed.

(** C8 (as amended). With audio data received, [generateSegmentAudio] wraps
    the decoded payload with [pcmToWav] at a sample rate that is the number
    parsed from the digits the text of the mime type shows after [rate=]
    (the leftmost [rate=] that a digit follows, wherever it stands), and
    24000 in every other case: the mime type is absent, or nowhere in it
    is [rate=] followed by a digit. *)
Theorem wav_sample_rate (host : Host) (text : string) (audioContext : AudioContext)
    (voice : option string) (response : Response) (audioData : string) :
  generateContent host (audioRequest text (default "Kore" voice)) = inr response →
  audioDataOf response = Some audioData → audioData ≠ "" →
  ∃ sampleRate,
    outcome (generateSegmentAudio host text audioContext voice)
      = wrapAndDecode host audioContext audioData sampleRate ∧
    (∀ m ds, mimeTypeOf response = Some m → rate_digits m ds →
             sampleRate = parseInt10 ds) ∧
    (mimeTypeOf response = None → sampleRate = 24000) ∧
    (∀ m, mimeTypeOf response = Some m → (∀ ds, ¬ rate_digits m ds) →
          sampleRate = 24000).
Proof.
  intros Hr Hd Hne. exists (sampleRateOf (mimeTypeOf response)).
  rewrite audio_outcome, Hr, Hd. apply String.eqb_neq in Hne. rewrite Hne.
  split; [reflexivity|]. unfold sampleRateOf. repeat split.
  - intros m ds -> Hrate. change (default "" (Some m)) with m. cbn [truthy].
    destruct (String.eqb m "") eqn:Hm.
    + apply String.eqb_eq in Hm. subst m.
      destruct Hrate as (pre & rest & Heq & _). destruct pre; discriminate.
    + cbn [negb]. now rewrite (match_rate_digits m ds Hrate).
  - intros ->. reflexivity.
  - intros m -> Hno. change (default "" (Some m)) with m. cbn [truthy].
    destruct (String.eqb m ""); cbn [negb]; [reflexivity|].
    apply match_rate_none in Hno. now rewrite Hno.
Qed.

End ServiceProofs.

(** ** The service on concrete inputs *)

Module ServiceExamples.
Import Gemini ServiceProofs.

Definition walk : RouteDetails :=
  mkRoute "Pier 39" "Coit Tower" "WALKING" "25 mins" "NOIR".

(** An engine with room for arrays of up to [2^27 - 1] elements, built at
    once or by [push], which throws a [RangeError] beyond. *)
Definition ENGINE_ROOM : Z := 134217727.

Definition refused (room n : Z) : option Exn :=
  if n <=? room then None else Some (RangeError "Invalid array length").

(** A runtime good enough for texts that are plain ASCII and carry no
    surrounding white space, whose [JSON.parse] knows two texts, with room
    for arrays of up to [room] elements. *)
Definition engine (room : Z) (model : Request → Exn + Response) : Host :=
  {| trim := fun s => s;
     toLowerCase := fun s => s;
     numberToString := fun n => NilZero.string_of_int (Z.to_int n);
     JSON_parse := fun s =>
       if String.eqb s "[1]" then inr (JArr [JNum 1])
       else if String.eqb s "[1,2,3]" then inr (JArr [JNum 1; JNum 2; JNum 3])
       else inl (mkExn "SyntaxError" s);
     generateContent := model;
     base64ToArrayBuffer := fun _ => inr [Byte.x00; Byte.x00; Byte.x00];
     pcmToWav := fun pcm _ => inr pcm;
     Array_refused := refused room;
     push_refused := fun n => refused room (n + 1) |}.

Definition runtime : (Request → Exn + Response) → Host := engine ENGINE_ROOM.

(** The network is down: every model call throws. *)
Definition offline : Host := runtime (fun _ => inl (Error "fetch failed")).

(** A model that answers with a three-chapter outline. *)
Definition counting : Host := runtime (fun _ => inr (mkResponse (Some "[1,2,3]") None)).

(** A text reply grounded in three chunks, two of them for the same page. *)
Definition grounded : Host :=
  runtime (fun _ => inr
    {| respText := Some "The tower rose in 1933.";
       candidates := Some [
         {| content := None;
            groundingMetadata := Some {| groundingChunks := Some [
              mkChunk (Some (mkWeb (Some "https://a.example/coit") (Some "Coit Tower")));
              mkChunk (Some (mkWeb (Some "https://b.example/pier") (Some "Pier 39")));
              mkChunk (Some (mkWeb (Some "https://a.example/coit") (Some "Coit Tower, again")));
              mkChunk (Some (mkWeb None (Some "untitled")));
              mkChunk None ] |} |} ] |}).

(** A speech reply: some audio data tagged with a mime type. *)
Definition spoken (mime : option string) : Response :=
  {| respText := None;
     candidates := Some [
       {| content := Some {| parts := Some [
            {| inlineData := Some {| data := Some "AAAA"; mimeType := mime |} |} ] |};
          groundingMetadata := None |} ] |}.

Definition speaking (mime : option string) : Host :=
  runtime (fun _ => inr (spoken mime)).

Definition decoding : AudioContext :=
  {| decodeAudioData := fun wav => inr (mkAudioBuffer 24000 (len wav # 48000)) |}.

(** A context that cannot decode what it is given. *)
Definition rejecting : AudioContext :=
  {| decodeAudioData := fun _ => inl (mkExn "EncodingError" "Unable to decode audio data") |}.

(** A [pcmToWav] that writes the sample rate in front of the samples (four
    bytes, lowest first), and a context that reads it back. *)
Definition byte_of (z : Z) : Byte.byte :=
  default Byte.x00 (Byte.of_N (Z.to_N (z mod 256))).

Definition rate_header (rate : Z) : list Byte.byte :=
  [byte_of rate; byte_of (rate / 256); byte_of (rate / 65536); byte_of (rate / 16777216)].

Definition header_rate (wav : list Byte.byte) : Z :=
  fold_right (fun b acc => Z.of_N (Byte.to_N b) + 256 * acc) 0 (take 4 wav).

Definition framing (mime : option string) : Host :=
  {| trim := fun s => s;
     toLowerCase := fun s => s;
     numberToString := fun n => NilZero.string_of_int (Z.to_int n);
     JSON_parse := fun s => inl (mkExn "SyntaxError" s);
     generateContent := fun _ => inr (spoken mime);
     base64ToArrayBuffer := fun _ => inr [Byte.x00; Byte.x00; Byte.x00];
     pcmToWav := fun pcm rate => inr (rate_header rate ++ pcm);
     Array_refused := refused ENGINE_ROOM;
     push_refused := fun n => refused ENGINE_ROOM (n + 1) |}.

Definition reading : AudioContext :=
  {| decodeAudioData := fun wav => inr (mkAudioBuffer (header_rate wav) 0) |}.

Lemma outline_fallback_on_failure_witness :
  generateStoryOutline offline walk 3
  = ([ApiCall (outlineRequest offline walk 3);
      ConsoleError "Outline Generation Error:" (Error "fetch failed")],
     inr [OUTLINE_FALLBACK; OUTLINE_FALLBACK; OUTLINE_FALLBACK]).
Proof.
  apply (outline_fallback_on_failure offline walk 3 (Error "fetch failed")).
  - unfold MAX_ARRAY_LENGTH. lia.
  - reflexivity.
  - apply outline_call_throws. reflexivity.
Defined.

(** With a negative count the fallback itself throws: [Array(-1)] is a
    [RangeError], raised inside the [catch] block. *)
Lemma outline_fallback_throws_on_negative_count :
  OutlineFailure offline walk (-1) (Error "fetch failed") ∧
  outcome (generateStoryOutline offline walk (-1))
    = inl (RangeError "Invalid array length").
Proof.
  split.
  - apply outline_call_throws. reflexivity.
  - reflexivity.
Qed.

(** So it does for a count that is a valid array length but more than the
    engine has room for. *)
Example outline_fallback_throws_without_room :
  0 <= 134217728 <= MAX_ARRAY_LENGTH ∧
  OutlineFailure offline walk 134217728 (Error "fetch failed") ∧
  outcome (generateStoryOutline offline walk 134217728)
    = inl (RangeError "Invalid array length").
Proof.
  split; [unfold MAX_ARRAY_LENGTH; lia|]. split.
  - apply outline_call_throws. reflexivity.
  - reflexivity.
Qed.

Lemma counting_replies (n : Z) :
  OutlineReply counting walk n [JNum 1; JNum 2; JNum 3].
Proof.
  exists (mkResponse (Some "[1,2,3]") None), "[1,2,3]".
  repeat split; discriminate.
Qed.

(** The engine of these examples has the room to grow an array to a few
    elements. *)
Ltac has_room :=
  let k := fresh "k" in
  let Hk := fresh "Hk" in
  intros k Hk; cbn; unfold refused, ENGINE_ROOM;
  destruct (Z.leb_spec (k + 1) 134217727); [reflexivity | lia].

(** A reply of three chapters padded to five and cut to two, and the
    fallback of three when the network is down. *)
Lemma outline_length_witness :
  (∃ padded, outcome (generateStoryOutline counting walk 5) = inr padded ∧ len padded = 5 ∧
     padded = [JNum 1; JNum 2; JNum 3; OUTLINE_PLACEHOLDER; OUTLINE_PLACEHOLDER]) ∧
  (∃ cut, outcome (generateStoryOutline counting walk 2) = inr cut ∧ len cut = 2 ∧
     cut = [JNum 1; JNum 2]) ∧
  (∃ fallback, outcome (generateStoryOutline offline walk 3) = inr fallback ∧
     len fallback = 3 ∧
     fallback = [OUTLINE_FALLBACK; OUTLINE_FALLBACK; OUTLINE_FALLBACK]).
Proof.
  split; [|split].
  - destruct (outline_length counting walk 5) as (outline & Hout & Hlen & _ & Hreply & _).
    + unfold MAX_ARRAY_LENGTH. lia.
    + reflexivity.
    + has_room.
    + exists outline. split; [exact Hout|]. split; [exact Hlen|].
      apply (Hreply [JNum 1; JNum 2; JNum 3]), counting_replies.
  - destruct (outline_length counting walk 2) as (outline & Hout & Hlen & _ & Hreply & _).
    + unfold MAX_ARRAY_LENGTH. lia.
    + reflexivity.
    + has_room.
    + exists outline. split; [exact Hout|]. split; [exact Hlen|].
      apply (Hreply [JNum 1; JNum 2; JNum 3]), counting_replies.
  - destruct (outline_length offline walk 3) as (outline & Hout & Hlen & Hfail & _).
    + unfold MAX_ARRAY_LENGTH. lia.
    + reflexivity.
    + has_room.
    + exists outline. split; [exact Hout|]. split; [exact Hlen|].
      apply (Hfail (Error "fetch failed")), outline_call_throws. reflexivity.
Defined.

(** An engine with room for four elements only cannot pad the reply of
    three chapters to six: the [push] that finds no room throws inside the
    [try], so that a line is logged although the reply was usable, and the
    fallback, for which there is no room either, throws in its turn. *)
Definition cramped : Host := engine 4 (fun _ => inr (mkResponse (Some "[1,2,3]") None)).

Example outline_padding_without_room :
  OutlineReply cramped walk 6 [JNum 1; JNum 2; JNum 3] ∧
  generateStoryOutline cramped walk 6
  = ([ApiCall (outlineRequest cramped walk 6);
      ConsoleError "Outline Generation Error:" (RangeError "Invalid array length")],
     inl (RangeError "Invalid array length")).
Proof.
  split.
  - exists (mkResponse (Some "[1,2,3]") None), "[1,2,3]". repeat split; discriminate.
  - assert (Hpad : pad_outline cramped [JNum 1; JNum 2; JNum 3] 6
                   = throw (RangeError "Invalid array length")).
    { rewrite pad_outline_push by reflexivity.
      change (push_refused cramped _) with (@None Exn). cbn [app].
      now rewrite pad_outline_push by reflexivity. }
    unfold generateStoryOutline, call.
    change (generateContent cramped _) with (@inr Exn _ (mkResponse (Some "[1,2,3]") None)).
    change (JSON_parse cramped "[1,2,3]") with (@inr Exn _ (JArr [JNum 1; JNum 2; JNum 3])).
    cbn -[pad_outline outlineRequest]. now rewrite Hpad.
Qed.

(** [2^32] chapters are one too many for an array: the fallback throws. *)
Lemma outline_length_fails_beyond_array_limit :
  1 <= 4294967296 ∧
  outcome (generateStoryOutline offline walk 4294967296)
    = inl (RangeError "Invalid array length").
Proof. split; [lia | reflexivity]. Qed.

(** The model answered with audio data, yet the call rejects: the context
    could not decode the payload. *)
Lemma audio_raises_though_data_arrived :
  raises (generateSegmentAudio (speaking (Some "audio/L16;rate=24000")) "Hello." rejecting None)
  ∧ ¬ yieldsNoAudio (speaking (Some "audio/L16;rate=24000")) (audioRequest "Hello." "Kore").
Proof.
  split.
  - eexists. reflexivity.
  - unfold yieldsNoAudio. cbn. discriminate.
Qed.

Lemma sources_deduplicated_witness :
  ∃ response,
    generateContent grounded (segmentRequest grounded walk 2 5 "The climb" "") = inr response ∧
    (Some [mkSource "Coit Tower" "https://a.example/coit";
           mkSource "Pier 39" "https://b.example/pier"] = None
       ↔ ¬ ∃ c u t, c ∈ chunksOf response ∧ cites c u t) ∧
    ∀ srcs, Some [mkSource "Coit Tower" "https://a.example/coit";
                  mkSource "Pier 39" "https://b.example/pier"] = Some srcs →
      NoDup (uri <$> srcs) ∧
      (∀ u, u ∈ (uri <$> srcs) ↔ ∃ c t, c ∈ chunksOf response ∧ cites c u t) ∧
      (∀ s, s ∈ srcs → ∃ c, c ∈ chunksOf response ∧ cites c (uri s) (title s)).
Proof.
  apply (sources_deduplicated grounded walk 2 5 "The climb" None
           (mkSegment 2 "The tower rose in 1933." None
              (Some [mkSource "Coit Tower" "https://a.example/coit";
                     mkSource "Pier 39" "https://b.example/pier"]))).
  reflexivity.
Defined.

(** The mime type the speech model tags its payload with. *)
Example rate_of_L16 : rate_digits "audio/L16;codec=pcm;rate=24000" "24000".
Proof. apply match_rate_sound. reflexivity. Qed.

Example rate_16000 : sampleRateOf (Some "audio/L16;codec=pcm;rate=16000") = 16000.
Proof. reflexivity. Qed.

Example rate_default :
  sampleRateOf None = 24000 ∧ sampleRateOf (Some "") = 24000 ∧
  sampleRateOf (Some "audio/wav") = 24000 ∧ sampleRateOf (Some "audio/pcm;rate=") = 24000.
Proof. repeat split. Qed.

(** The mime type the speech model sends does carry the parameter. *)
Example rate_is_a_parameter :
  mime_parameter "rate" "audio/L16;codec=pcm;rate=24000" = Some "24000" ∧
  mime_parameter "codec" "audio/L16;codec=pcm;rate=24000" = Some "pcm" ∧
  mime_parameter "rate" "audio/L16; rate=16000" = Some "16000" ∧
  mime_parameter "rate" "audio/wav" = None.
Proof. repeat split. Qed.

(** The pattern is not anchored at a parameter's name: [rate=] is found as a
    piece of text wherever it stands. A mime type whose only parameter is
    [bitrate] carries no parameter [rate], yet the payload is wrapped at the
    bit rate and not at 24000. *)
Lemma bitrate_read_as_rate :
  mime_parameter "rate" "audio/L16;bitrate=128000" = None ∧
  mime_parameter "bitrate" "audio/L16;bitrate=128000" = Some "128000" ∧
  sampleRateOf (Some "audio/L16;bitrate=128000") = 128000 ∧
  outcome (generateSegmentAudio (framing (Some "audio/L16;bitrate=128000")) "Hello."
             reading None)
    = inr (mkAudioBuffer 128000 0).
Proof. repeat split. Qed.

(** A parameter [rate] that does not start with a digit is passed over. *)
Example rate_without_digits :
  mime_parameter "rate" "audio/pcm;rate=fast" = Some "fast" ∧
  sampleRateOf (Some "audio/pcm;rate=fast") = 24000.
Proof. repeat split. Qed.

Lemma wav_sample_rate_witness :
  let mime := Some "audio/L16;codec=pcm;rate=16000" in
  ∃ sampleRate,
    outcome (generateSegmentAudio (speaking mime) "Hello." decoding None)
      = wrapAndDecode (speaking mime) decoding "AAAA" sampleRate ∧
    (∀ m ds, mimeTypeOf (spoken mime) = Some m → rate_digits m ds →
             sampleRate = parseInt10 ds) ∧
    (mimeTypeOf (spoken mime) = None → sampleRate = 24000) ∧
    (∀ m, mimeTypeOf (spoken mime) = Some m → (∀ ds, ¬ rate_digits m ds) →
          sampleRate = 24000).
Proof.
  intros mime.
  apply (wav_sample_rate (speaking mime) "Hello." decoding None (spoken mime) "AAAA").
  - reflexivity.
  - reflexivity.
  - discriminate.
Defined.

End ServiceExamples.

(** * Properties of the player *)

Module PlayerProofs.
Import Player.

(** Every playing node is the one [sourceRef] holds. *)
Definition single_source (s : State) : Prop :=
  ∀ i n, nodes s !! i = Some n → playing n = true → sourceRef s = Some i.

(** An installed [onended] handler closes over a segment with a buffer, so
    its [segment.audioBuffer!.duration] reads a buffer. *)
Definition handlers_sound (s : State) : Prop :=
  ∀ i n segment closure,
    nodes s !! i = Some n → onended n = Some (segment, closure) →
    is_Some (audioBuffer segment).

Definition context_ready (s : State) : Prop :=
  ∃ c, audioContextRef s = Some c ∧ c ≠ suspended.

Definition queue_sound (s : State) : Prop :=
  ∀ segment offset closure,
    (segment, offset, closure) ∈ resuming s → is_Some (audioBuffer segment).

(** The invariant of the audio side of the state. *)
Record audio_inv (s : State) : Prop := mk_audio_inv {
  inv_single : single_source s;
  inv_handlers : handlers_sound s;
  inv_context : nodes s ≠ [] → context_ready s;
  inv_queue : queue_sound s
}.

(** The invariant of the states between two turns of the event loop. *)
Definition inv (s : State) : Prop :=
  audio_inv s ∧ indexRef s = currentSegmentIndex s.

(** No node is playing. *)
Definition quiet (s : State) : Prop :=
  ∀ i n, nodes s !! i = Some n → playing n = false.

(** [audio_inv] reads four fields only. *)
Lemma audio_inv_frame (s s' : State) :
  nodes s' = nodes s → sourceRef s' = sourceRef s →
  audioContextRef s' = audioContextRef s → resuming s' = resuming s →
  audio_inv s → audio_inv s'.
Proof.
  intros Hn Hs Hc Hq [H1 H2 H3 H4].
  split; unfold single_source, handlers_sound, context_ready, queue_sound in *;
    rewrite ?Hn, ?Hs, ?Hc, ?Hq; assumption.
Qed.

Ltac frame :=
  match goal with
  | H : audio_inv ?s |- audio_inv _ =>
      solve [apply (audio_inv_frame s); [reflexivity .. | exact H]]
  end.

Lemma initial_inv : inv initial.
Proof.
  split; [|reflexivity]. split.
  - intros i n Hi. cbn in Hi. rewrite ?lookup_nil in Hi. discriminate.
  - intros i n ? ? Hi. cbn in Hi. rewrite ?lookup_nil in Hi. discriminate.
  - intros H. now destruct H.
  - intros ? ? ? H. cbn in H. now apply elem_of_nil in H.
Qed.

(** *** [stopAudio] *)

Lemma stopAudio_lookup (s : State) (i : nat) (n : SourceNode) :
  nodes (stopAudio s) !! i = Some n →
  ∃ n0, nodes s !! i = Some n0 ∧
        ((sourceRef s = Some i ∧ n = silence n0) ∨ (sourceRef s ≠ Some i ∧ n = n0)).
Proof.
  unfold stopAudio. destruct (sourceRef s) as [j|] eqn:Hj; cbn [nodes set_sourceRef set_nodes].
  - destruct (decide (j = i)) as [->|Hne].
    + rewrite list_lookup_alter_eq. destruct (nodes s !! i) as [n0|]; [|discriminate].
      intros [= <-]. exists n0. split; [reflexivity|]. now left.
    + rewrite list_lookup_alter_ne by assumption. intros Hi.
      exists n. split; [assumption|]. right. split; [congruence | reflexivity].
  - intros Hi. exists n. split; [assumption|]. right. split; [discriminate | reflexivity].
Qed.

Lemma stopAudio_length (s : State) : length (nodes (stopAudio s)) = length (nodes s).
Proof.
  unfold stopAudio. destruct (sourceRef s); cbn; [apply length_alter | reflexivity].
Qed.

Lemma stopAudio_sourceRef (s : State) : sourceRef (stopAudio s) = None.
Proof. unfold stopAudio. now destruct (sourceRef s) eqn:H. Qed.

(** [stopAudio] stops the source the player holds and lets go of it. With
    the invariant, nothing is playing afterwards. *)
Lemma stopAudio_quiet (s : State) : single_source s → quiet (stopAudio s).
Proof.
  intros Hsingle i n Hi.
  destruct (stopAudio_lookup s i n Hi) as (n0 & Hi0 & [[_ ->] | [Hne ->]]); [reflexivity|].
  destruct (playing n0) eqn:Hp; [|reflexivity].
  now destruct Hne; apply (Hsingle i n0).
Qed.

Lemma stopAudio_other_fields (s : State) :
  audioContextRef (stopAudio s) = audioContextRef s ∧
  resuming (stopAudio s) = resuming s ∧
  isPlaying (stopAudio s) = isPlaying s ∧
  isBuffering (stopAudio s) = isBuffering s ∧
  currentSegmentIndex (stopAudio s) = currentSegmentIndex s ∧
  indexRef (stopAudio s) = indexRef s.
Proof. unfold stopAudio. now destruct (sourceRef s). Qed.

Lemma stopAudio_inv (s : State) : audio_inv s → audio_inv (stopAudio s).
Proof.
  intros [H1 H2 H3 H4].
  destruct (stopAudio_other_fields s) as (Hc & Hq & _).
  split.
  - intros i n Hi Hp. now rewrite (stopAudio_quiet s H1 i n Hi) in Hp.
  - intros i n seg cl Hi Hh.
    destruct (stopAudio_lookup s i n Hi) as (n0 & Hi0 & [[_ ->] | [_ ->]]); [discriminate|].
    eapply H2; eassumption.
  - intros Hne. unfold context_ready. rewrite Hc. apply H3.
    intros Hnil. apply Hne. apply length_zero_iff_nil.
    rewrite stopAudio_length, Hnil. reflexivity.
  - unfold queue_sound. now rewrite Hq.
Qed.

(** *** [playSegment] *)

Lemma startSource_nodes (closure : Props) (env : Env) (segment : StorySegment)
    (offset : Q) (s : State) :
  nodes (startSource closure env segment offset s)
  = nodes (stopAudio s) ++ [mkNode (audioBuffer segment) offset true (Some (segment, closure))]
  ∧ sourceRef (startSource closure env segment offset s) = Some (length (nodes s)).
Proof.
  unfold startSource. cbn. now rewrite stopAudio_length.
Qed.

Lemma startSource_other_fields (closure : Props) (env : Env) (segment : StorySegment)
    (offset : Q) (s : State) :
  let s' := startSource closure env segment offset s in
  audioContextRef s' = audioContextRef s ∧ resuming s' = resuming s ∧
  isPlaying s' = isPlaying s ∧ isBuffering s' = isBuffering s ∧
  currentSegmentIndex s' = currentSegmentIndex s ∧ indexRef s' = indexRef s.
Proof. unfold startSource, stopAudio. now destruct (sourceRef s). Qed.

(** The node [playSegment] starts plays the segment's buffer from the
    offset asked for, and is the source the player holds from then on. *)
Lemma startSource_now_playing (closure : Props) (env : Env) (segment : StorySegment)
    (offset : Q) (s : State) (b : AudioBuffer) :
  audioBuffer segment = Some b →
  now_playing (startSource closure env segment offset s) (length (nodes s)) b offset.
Proof.
  intros Hb. destruct (startSource_nodes closure env segment offset s) as [Hn Hs].
  split; [exact Hs|]. rewrite Hn.
  eexists. split.
  - rewrite lookup_app_r by (rewrite stopAudio_length; lia).
    rewrite stopAudio_length, Nat.sub_diag. reflexivity.
  - now rewrite Hb.
Qed.

(** Starting a source stops the one held before: afterwards the new node
    is the only one playing. *)
Lemma startSource_only_new (closure : Props) (env : Env) (segment : StorySegment)
    (offset : Q) (s : State) (i : nat) (n : SourceNode) :
  single_source s →
  nodes (startSource closure env segment offset s) !! i = Some n →
  playing n = true → i = length (nodes s).
Proof.
  intros Hsingle Hi Hp.
  destruct (startSource_nodes closure env segment offset s) as [Hn _].
  rewrite Hn in Hi. apply lookup_snoc_Some in Hi as [[_ Hi] | [Hi _]].
  - now rewrite (stopAudio_quiet s Hsingle i n Hi) in Hp.
  - now rewrite stopAudio_length in Hi.
Qed.

Lemma startSource_inv (closure : Props) (env : Env) (segment : StorySegment)
    (offset : Q) (s : State) :
  audio_inv s → is_Some (audioBuffer segment) → context_ready s →
  audio_inv (startSource closure env segment offset s).
Proof.
  intros Hinv Hb Hctx.
  destruct (startSource_nodes closure env segment offset s) as [Hn Hs].
  destruct (startSource_other_fields closure env segment offset s) as (Hc & Hq & _).
  split.
  - intros i n Hi Hp. rewrite Hs. f_equal. symmetry.
    eapply startSource_only_new; [apply Hinv | exact Hi | exact Hp].
  - intros i n seg cl Hi Hh. rewrite Hn in Hi.
    apply lookup_snoc_Some in Hi as [[_ Hi] | [_ <-]].
    + eapply (inv_handlers _ (stopAudio_inv s Hinv)); eassumption.
    + cbn in Hh. now injection Hh as <- <-.
  - intros _. unfold context_ready. now rewrite Hc.
  - unfold queue_sound. rewrite Hq. apply Hinv.
Qed.

Lemma playSegment_index (closure : Props) (env : Env) (segment : option StorySegment)
    (offset : Q) (s : State) :
  let s' := playSegment closure env segment offset s in
  currentSegmentIndex s' = currentSegmentIndex s ∧ indexRef s' = indexRef s ∧
  isPlaying s' = isPlaying s.
Proof.
  unfold playSegment, ensureContext, startSource, stopAudio.
  destruct segment as [seg|]; [|now cbn].
  destruct (audioBuffer seg); [|now cbn].
  destruct (audioContextRef s) as [c|] eqn:Hc; cbn.
  - rewrite Hc. destruct c; cbn; now destruct (sourceRef s).
  - destruct (initialState env); cbn; now destruct (sourceRef s).
Qed.

Lemma playSegment_inv (closure : Props) (env : Env) (segment : option StorySegment)
    (offset : Q) (s : State) :
  audio_inv s → audio_inv (playSegment closure env segment offset s).
Proof.
  intros Hinv. unfold playSegment.
  destruct segment as [seg|]; [|frame].
  destruct (audioBuffer seg) as [b|] eqn:Hb; [|frame].
  set (s1 := ensureContext env s).
  assert (Hinv1 : audio_inv s1).
  { subst s1. unfold ensureContext.
    destruct (audioContextRef s) as [c|] eqn:Hc; [assumption|].
    destruct Hinv as [H1 H2 H3 H4]. split; try assumption.
    cbn [nodes set_audioContextRef]. intros Hne.
    destruct (H3 Hne) as (c & Hc' & _). congruence. }
  assert (Hsome : ∃ c, audioContextRef s1 = Some c).
  { subst s1. unfold ensureContext.
    destruct (audioContextRef s) as [c|] eqn:Hc; cbn; eauto. }
  destruct Hsome as [c Hc]. rewrite Hc.
  assert (Hqueued : audio_inv (set_resuming (resuming s1 ++ [(seg, offset, closure)]) s1)).
  { destruct Hinv1 as [H1 H2 H3 H4]. split; try assumption.
    intros seg' off' cl' [Hin | Hin%list_elem_of_singleton]%elem_of_app.
    - eapply H4; eassumption.
    - injection Hin as -> -> ->. now rewrite Hb. }
  destruct c; [exact Hqueued | |];
    (apply startSource_inv; [exact Hinv1 | now rewrite Hb | eexists; split; [exact Hc | discriminate]]).
Qed.

(** With a context that is not suspended, [playSegment] starts the source
    at once. *)
Lemma playSegment_ready (closure : Props) (env : Env) (segment : StorySegment)
    (offset : Q) (s : State) (b : AudioBuffer) :
  audioBuffer segment = Some b → context_ready s →
  playSegment closure env (Some segment) offset s
  = startSource closure env segment offset s.
Proof.
  intros Hb (c & Hc & Hne). unfold playSegment, ensureContext. rewrite Hb, Hc. cbn.
  rewrite Hc. now destruct c.
Qed.

(** *** The handlers keep the invariant *)

Lemma handleSegmentEnd_inv (closure : Props) (env : Env) (s : State) :
  audio_inv s → audio_inv (handleSegmentEnd closure env s).
Proof.
  intros Hinv. unfold handleSegmentEnd.
  destruct (_ ?. audioBuffer).
  - apply playSegment_inv. frame.
  - destruct (_ && _); frame.
Qed.

Lemma togglePlayback_inv (props : Props) (env : Env) (s : State) :
  audio_inv s → audio_inv (togglePlayback props env s).
Proof.
  intros Hinv. unfold togglePlayback. destruct (isPlaying s).
  - match goal with |- audio_inv (setAutoScroll _ (setIsPlaying _ (stopAudio ?x))) =>
      assert (Hx : audio_inv x) end.
    { destruct (audioContextRef s); [destruct (negb (isBuffering s))|]; try assumption; frame. }
    apply stopAudio_inv in Hx. clear Hinv. frame.
  - destruct (_ ?. audioBuffer); [|frame].
    match goal with |- audio_inv (setAutoScroll _ ?x) => assert (Hx : audio_inv x) end.
    { apply playSegment_inv. frame. }
    clear Hinv. frame.
Qed.

Lemma bufferReadyEffect_inv (props : Props) (env : Env) (s : State) :
  audio_inv s → audio_inv (bufferReadyEffect props env s).
Proof.
  intros Hinv. unfold bufferReadyEffect.
  destruct (_ && _); [|assumption].
  destruct (_ ?. audioBuffer); [|assumption].
  apply playSegment_inv. frame.
Qed.

Lemma bufferReadyEffect_index (props : Props) (env : Env) (s : State) :
  currentSegmentIndex (bufferReadyEffect props env s) = currentSegmentIndex s ∧
  indexRef (bufferReadyEffect props env s) = indexRef s.
Proof.
  unfold bufferReadyEffect.
  destruct (_ && _); [|now split].
  destruct (_ ?. audioBuffer); [|now split].
  destruct (playSegment_index props env (segments (story props) !! currentSegmentIndex s)
              0%Q (setIsBuffering false s)) as (H1 & H2 & _).
  now split.
Qed.

Lemma finished_inv (i : nat) (s : State) :
  audio_inv s → audio_inv (set_nodes (alter finish i (nodes s)) s).
Proof.
  intros [H1 H2 H3 H4].
  split; unfold single_source, handlers_sound, context_ready, queue_sound;
    cbn [nodes sourceRef audioContextRef resuming set_nodes].
  - intros j n Hj Hp. destruct (decide (i = j)) as [->|Hne].
    + rewrite list_lookup_alter_eq in Hj.
      destruct (nodes s !! j); [|discriminate]. injection Hj as <-. discriminate.
    + rewrite list_lookup_alter_ne in Hj by assumption. eapply H1; eassumption.
  - intros j n seg cl Hj Hh. destruct (decide (i = j)) as [->|Hne].
    + rewrite list_lookup_alter_eq in Hj.
      destruct (nodes s !! j) as [n0|] eqn:Hn0; [|discriminate]. injection Hj as <-.
      eapply H2; eassumption.
    + rewrite list_lookup_alter_ne in Hj by assumption. eapply H2; eassumption.
  - intros Hne. apply H3. intros Hnil. apply Hne. now rewrite Hnil.
  - assumption.
Qed.

Lemma sourceEnded_inv (i : nat) (env : Env) (s s' : State) :
  audio_inv s → sourceEnded i env s = inr s' → audio_inv s'.
Proof.
  intros Hinv. unfold sourceEnded.
  destruct (nodes s !! i) as [n|]; [|now intros [= <-]].
  destruct (playing n); [|now intros [= <-]].
  pose proof (finished_inv i s Hinv) as Hfin.
  destruct (onended n) as [[segment closure]|]; [|now intros [= <-]].
  destruct (audioBuffer segment) as [b|]; [|discriminate].
  cbn [audioContextRef set_nodes].
  destruct (audioContextRef s); [|now intros [= <-]].
  destruct (Qle_bool _ _); intros [= <-]; [|assumption].
  now apply handleSegmentEnd_inv.
Qed.

Lemma resumed_inv (env : Env) (s : State) : audio_inv s → audio_inv (resumed env s).
Proof.
  intros Hinv. unfold resumed.
  destruct (resuming s) as [|[[segment offset] closure] rest] eqn:Hq; [assumption|].
  assert (Hb : is_Some (audioBuffer segment)).
  { eapply (inv_queue s Hinv). rewrite Hq. apply list_elem_of_here. }
  assert (Hrest : audio_inv (set_resuming rest s)).
  { destruct Hinv as [H1 H2 H3 H4]. split; try assumption.
    intros seg off cl Hin. apply (H4 seg off cl). rewrite Hq. now apply list_elem_of_further. }
  cbn [audioContextRef set_resuming].
  destruct (audioContextRef s) as [c|] eqn:Hc; [|assumption].
  assert (Hrun : audio_inv (set_audioContextRef (Some running) (set_resuming rest s))).
  { destruct Hrest as [H1 H2 H3 H4]. split; try assumption.
    intros _. exists running. split; [reflexivity | discriminate]. }
  destruct c; [| |assumption];
    (apply startSource_inv; [exact Hrun | exact Hb |
                             exists running; split; [reflexivity | discriminate]]).
Qed.

Lemma unmount_inv (s : State) : audio_inv s → audio_inv (unmount s).
Proof.
  intros Hinv. apply stopAudio_inv in Hinv. unfold unmount.
  destruct (audioContextRef (stopAudio s)); [|assumption].
  destruct Hinv as [H1 H2 H3 H4]. split; try assumption.
  intros _. exists closed. split; [reflexivity | discriminate].
Qed.

Lemma unmount_index (s : State) :
  currentSegmentIndex (unmount s) = currentSegmentIndex s ∧ indexRef (unmount s) = indexRef s.
Proof.
  unfold unmount, stopAudio.
  destruct (sourceRef s); cbn; destruct (audioContextRef s); now cbn.
Qed.

Lemma handle_inv (props : Props) (env : Env) (a : Action) (s s' : State) :
  audio_inv s → handle props env a s = inr s' → audio_inv s'.
Proof.
  intros Hinv. destruct a; cbn [handle]; try (intros [= <-]).
  - now apply togglePlayback_inv.
  - frame.
  - now apply sourceEnded_inv.
  - now apply resumed_inv.
  - assumption.
  - now apply unmount_inv.
Qed.

Lemma commit_inv (props : Props) (env : Env) (s : State) :
  audio_inv s → inv (commit props env s).
Proof.
  intros Hinv. unfold commit. split.
  - apply bufferReadyEffect_inv. unfold syncIndexRef. frame.
  - destruct (bufferReadyEffect_index props env (syncIndexRef s)) as [-> ->]. reflexivity.
Qed.

Lemma dispatch_inv (props : Props) (env : Env) (a : Action) (s s' : State) :
  inv s → dispatch props env a s = inr s' → inv s'.
Proof.
  intros [Hinv Hidx]. unfold dispatch.
  destruct (handle props env a s) as [e | s1] eqn:Hh; [discriminate|].
  pose proof (handle_inv props env a s s1 Hinv Hh) as Hinv1.
  destruct a; intros [= <-]; try now apply commit_inv.
  cbn in Hh. injection Hh as <-. split; [assumption|].
  destruct (unmount_index s) as [-> ->]. exact Hidx.
Qed.

(** The invariant holds in every state the component can be in. *)
Lemma reachable_inv (s : State) : reachable s → inv s.
Proof.
  induction 1 as [|props env a s s' _ IH Hstep].
  - apply initial_inv.
  - eapply dispatch_inv; eassumption.
Qed.

(** No handler throws: the [audioBuffer!] of an [onended] handler is never
    [null]. *)
Lemma dispatch_total (props : Props) (env : Env) (a : Action) (s : State) :
  reachable s → ∃ s', dispatch props env a s = inr s'.
Proof.
  intros [Hinv _]%reachable_inv. unfold dispatch.
  assert (Hh : ∃ s1, handle props env a s = inr s1).
  { destruct a; cbn [handle]; eauto.
    unfold sourceEnded.
    destruct (nodes s !! i) as [n|] eqn:Hn; [|eauto].
    destruct (playing n); [|eauto].
    destruct (onended n) as [[segment closure]|] eqn:Hh; [|eauto].
    destruct (inv_handlers s Hinv i n segment closure Hn Hh) as [b ->].
    cbn [audioContextRef set_nodes].
    destruct (audioContextRef s); [|eauto]. destruct (Qle_bool _ _); eauto. }
  destruct Hh as [s1 ->]. destruct a; eauto.
Qed.

Lemma run_reachable (turns : list (Props * Env * Action)) (s s' : State) :
  reachable s → run turns s = inr s' → reachable s'.
Proof.
  revert s. induction turns as [|[[props env] a] turns IH]; intros s Hs; cbn [run].
  - now intros [= <-].
  - destruct (dispatch props env a s) as [e | s1] eqn:Hstep; [discriminate|].
    apply IH. eapply reach_step; eassumption.
Qed.

Lemma after_reachable (turns : list (Props * Env * Action)) : reachable (after turns).
Proof.
  unfold after. destruct (run turns initial) as [e | s] eqn:Hrun.
  - apply reach_mount.
  - eapply run_reachable; [apply reach_mount | exact Hrun].
Qed.

(** *** Pending resumes *)

Lemma resumed_pops (env : Env) (s : State) (segment : StorySegment) (offset : Q)
    (closure : Props) (rest : list (StorySegment * Q * Props)) (c : ContextState) :
  resuming s = (segment, offset, closure) :: rest →
  audioContextRef s = Some c → c ≠ closed →
  resumed env s
  = startSource closure env segment offset
      (set_audioContextRef (Some running) (set_resuming rest s)).
Proof.
  intros Hq Hc Hne. unfold resumed. rewrite Hq. cbn [audioContextRef set_resuming].
  rewrite Hc. now destruct c.
Qed.


(** *** Behaviour of the handlers *)


(** The state of the context once [playSegment] has made sure there is one. *)
Definition context_after (env : Env) (s : State) : ContextState :=
  default (initialState env) (audioContextRef s).

Lemma ensureContext_fields (env : Env) (s : State) :
  let s1 := ensureContext env s in
  audioContextRef s1 = Some (context_after env s) ∧
  nodes s1 = nodes s ∧ resuming s1 = resuming s ∧
  isPlaying s1 = isPlaying s ∧ isBuffering s1 = isBuffering s.
Proof.
  unfold ensureContext, context_after.
  destruct (audioContextRef s) eqn:Hc; cbn; now rewrite ?Hc.
Qed.

(** [playSegment] on a segment with a buffer either queues behind
    [resume()] or starts the source, by the state of the context. *)
Lemma playSegment_cases (closure : Props) (env : Env) (segment : StorySegment)
    (offset : Q) (s : State) (b : AudioBuffer) :
  audioBuffer segment = Some b →
  let s1 := ensureContext env s in
  (context_after env s = suspended ∧
   playSegment closure env (Some segment) offset s
   = set_resuming (resuming s1 ++ [(segment, offset, closure)]) s1)
  ∨ (context_after env s ≠ suspended ∧
     playSegment closure env (Some segment) offset s
     = startSource closure env segment offset s1).
Proof.
  intros Hb s1. unfold playSegment. rewrite Hb. fold s1.
  destruct (ensureContext_fields env s) as (Hc & _). fold s1 in Hc. rewrite Hc.
  destruct (context_after env s); [left | right | right]; split; easy.
Qed.


(** After the node the player holds has played out, nothing is playing. *)
Lemma finished_quiet (i : nat) (n : SourceNode) (s : State) :
  single_source s → nodes s !! i = Some n → playing n = true →
  quiet (set_nodes (alter finish i (nodes s)) s).
Proof.
  intros Hsingle Hi Hp j m. cbn [nodes set_nodes]. intros Hj.
  destruct (decide (i = j)) as [<-|Hne].
  - rewrite list_lookup_alter_eq, Hi in Hj. now injection Hj as <-.
  - rewrite list_lookup_alter_ne in Hj by assumption.
    destruct (playing m) eqn:Hm; [|reflexivity].
    pose proof (Hsingle i n Hi Hp). pose proof (Hsingle j m Hj Hm). congruence.
Qed.

(** What the [onended] handler does when the node the player holds plays
    out and its test of the elapsed time passes: the current segment index
    goes up by exactly one, and the handler then decides on its closure, the
    story and the [isBackgroundGenerating] flag of the render in which the
    source was started, not on those current when the audio ends. If, in
    that story, the next segment has an audio buffer, that buffer starts
    playing from 0 at once; otherwise, if the next index is at or past that
    story's [totalSegmentsEstimate] and that flag says generation is over,
    [isPlaying] becomes false; in every other case [isBuffering] becomes
    true. In the last two cases nothing plays. *)
Theorem segment_end_advances (env : Env) (s : State) (i : nat) (n : SourceNode)
    (segment : StorySegment) (closure : Props) (b : AudioBuffer) :
  reachable s →
  nodes s !! i = Some n → playing n = true →
  onended n = Some (segment, closure) → audioBuffer segment = Some b →
  Qle_bool (subtract env (duration b) (1 # 2)) (subtract env (currentTime env) (startTimeRef s)) = true →
  ∃ s', sourceEnded i env s = inr s' ∧
    let next := S (currentSegmentIndex s) in
    currentSegmentIndex s' = next ∧
    match (segments (story closure) !! next) ?. audioBuffer with
    | Some b' =>
        now_playing s' (length (nodes s)) b' 0%Q ∧
        isPlaying s' = isPlaying s ∧ isBuffering s' = isBuffering s
    | None =>
        quiet s' ∧
        if (totalSegmentsEstimate (story closure) <=? Z.of_nat next)
           && negb (isBackgroundGenerating closure)
        then isPlaying s' = false ∧ isBuffering s' = isBuffering s
        else isBuffering s' = true ∧ isPlaying s' = isPlaying s
    end.
Proof.
  intros [Hinv Hidx]%reachable_inv Hi Hp Hh Hb Helapsed.
  assert (Hctx : context_ready s).
  { apply (inv_context s Hinv). intros Hnil. now rewrite Hnil in Hi. }
  destruct Hctx as (c & Hc & Hne).
  unfold sourceEnded. rewrite Hi, Hp, Hh, Hb. cbn [audioContextRef set_nodes startTimeRef].
  rewrite Hc, Helapsed. eexists. split; [reflexivity|].
  set (s1 := set_nodes (alter finish i (nodes s)) s).
  unfold handleSegmentEnd.
  change (indexRef s1) with (indexRef s). rewrite Hidx, Nat.add_1_r.
  set (next := S (currentSegmentIndex s)).
  set (s2 := set_segmentOffsetRef 0%Q (setCurrentSegmentIndex next s1)).
  cbn zeta.
  destruct (segments (story closure) !! next) as [nextSegment|] eqn:Hnext; cbn [mbind option_bind].
  - destruct (audioBuffer nextSegment) as [b'|] eqn:Hb'.
    + rewrite (playSegment_ready closure env nextSegment 0%Q s2 b' Hb')
        by (exists c; split; [exact Hc | exact Hne]).
      destruct (startSource_other_fields closure env nextSegment 0%Q s2)
        as (_ & _ & -> & -> & -> & _).
      split; [reflexivity|]. split; [|split; reflexivity].
      replace (length (nodes s)) with (length (nodes s2))
        by (subst s2 s1; cbn; apply length_alter).
      now apply startSource_now_playing.
    + split; [now destruct (_ && _)|]. split.
      * pose proof (finished_quiet i n s (inv_single s Hinv) Hi Hp) as Hquiet.
        now destruct (_ && _).
      * now destruct (_ && _).
  - split; [now destruct (_ && _)|]. split.
    + pose proof (finished_quiet i n s (inv_single s Hinv) Hi Hp) as Hquiet.
      now destruct (_ && _).
    + now destruct (_ && _).
Qed.

(** C5. Toggling playback while paused, with no audio buffer ready for the
    current segment (the segment is missing or its buffer is [null]), sets
    [isPlaying] and [isBuffering] and does nothing else: the handler returns
    normally, creates no source, queues no start and leaves the audio
    context alone; [playSegment] itself, handed such a segment, only raises
    the buffering flag. *)
Theorem toggle_without_buffer (props : Props) (env : Env) (s : State) :
  isPlaying s = false →
  (segments (story props) !! currentSegmentIndex s) ?. audioBuffer = None →
  handle props env Click s = inr (setIsBuffering true (setIsPlaying true s)) ∧
  dispatch props env Click s
    = inr (syncIndexRef (setIsBuffering true (setIsPlaying true s))) ∧
  (∀ s', dispatch props env Click s = inr s' →
     isPlaying s' = true ∧ isBuffering s' = true ∧
     nodes s' = nodes s ∧ sourceRef s' = sourceRef s ∧
     resuming s' = resuming s ∧ audioContextRef s' = audioContextRef s) ∧
  (∀ closure offset,
     playSegment closure env (segments (story props) !! currentSegmentIndex s) offset s
     = setIsBuffering true s).
Proof.
  intros Hpaused Hnone.
  assert (Hhandle : togglePlayback props env s = setIsBuffering true (setIsPlaying true s)).
  { unfold togglePlayback. now rewrite Hpaused, Hnone. }
  assert (Hdispatch : dispatch props env Click s
                      = inr (syncIndexRef (setIsBuffering true (setIsPlaying true s)))).
  { unfold dispatch, handle. rewrite Hhandle. unfold commit, bufferReadyEffect.
    cbn [isBuffering isPlaying setIsBuffering setIsPlaying syncIndexRef set_indexRef
         currentSegmentIndex andb].
    now rewrite Hnone. }
  split; [cbn [handle]; now rewrite Hhandle|]. split; [exact Hdispatch|]. split.
  - intros s'. rewrite Hdispatch. intros [= <-]. now cbn.
  - intros closure offset. unfold playSegment.
    destruct (segments (story props) !! currentSegmentIndex s) as [seg|]; [|reflexivity].
    cbn in Hnone. now rewrite Hnone.
Qed.

(** C6. In every state the component can reach, at most one source node is
    playing, and it is the one [sourceRef] holds; and [playSegment], when it
    starts a source, first stops the one held, so that the new node (the next
    index in the list of nodes) is the only one playing. *)
Theorem single_active_source (s : State) :
  reachable s →
  (∀ i j, active s i → active s j → i = j) ∧
  (∀ i, active s i → sourceRef s = Some i) ∧
  (∀ closure env segment offset i,
     active (startSource closure env segment offset s) i → i = length (nodes s)).
Proof.
  intros [Hinv _]%reachable_inv. pose proof (inv_single s Hinv) as Hsingle.
  split; [|split].
  - intros i j (n & Hi & Hp) (m & Hj & Hq).
    pose proof (Hsingle i n Hi Hp). pose proof (Hsingle j m Hj Hq). congruence.
  - intros i (n & Hi & Hp). now apply (Hsingle i n).
  - intros closure env segment offset i (n & Hi & Hp).
    now apply (startSource_only_new closure env segment offset s i n).
Qed.

End PlayerProofs.

(** ** The player on concrete inputs *)

Module PlayerExamples.
Import Player PlayerProofs.

Definition minute : AudioBuffer := mkAudioBuffer 24000 60.
Definition half_minute : AudioBuffer := mkAudioBuffer 24000 30.

Definition chapter (k : Z) (audio : option AudioBuffer) : StorySegment :=
  mkSegment k "Fog rolled over the pier." audio None.

(** Two chapters expected; none, the first, or both synthesised so far. *)
Definition silent_props : Props :=
  mkProps (mkStory [chapter 1 None; chapter 2 None] 2) true.
Definition first_ready : Props :=
  mkProps (mkStory [chapter 1 (Some minute); chapter 2 None] 2) true.
Definition both_ready : Props :=
  mkProps (mkStory [chapter 1 (Some minute); chapter 2 (Some half_minute)] 2) false.

(** On the whole seconds of these examples the difference of two doubles is
    exact. *)
Definition at_time (t : Q) : Env := mkEnv t running Qminus.

(** The listener pressed play before any audio had arrived. *)
Definition waiting : State := after [(silent_props, at_time 0, Click)].

(** The listener pressed play with both chapters ready: chapter 1 plays. *)
Definition playing_first : State := after [(both_ready, at_time 0, Click)].


Lemma segment_end_advances_witness :
  ∃ s', sourceEnded 0 (at_time 60) playing_first = inr s' ∧
        currentSegmentIndex s' = 1%nat ∧
        now_playing s' 1 half_minute 0%Q ∧
        isPlaying s' = true ∧ isBuffering s' = false.
Proof.
  apply (segment_end_advances (at_time 60) playing_first 0
           (mkNode (Some minute) 0%Q true (Some (chapter 1 (Some minute), both_ready)))
           (chapter 1 (Some minute)) both_ready minute).
  - apply after_reachable.
  - reflexivity.
  - reflexivity.
  - reflexivity.
  - reflexivity.
  - reflexivity.
Defined.

Lemma toggle_without_buffer_witness :
  handle silent_props (at_time 0) Click initial
    = inr (setIsBuffering true (setIsPlaying true initial)) ∧
  dispatch silent_props (at_time 0) Click initial
    = inr (syncIndexRef (setIsBuffering true (setIsPlaying true initial))) ∧
  (∀ s', dispatch silent_props (at_time 0) Click initial = inr s' →
     isPlaying s' = true ∧ isBuffering s' = true ∧
     nodes s' = nodes initial ∧ sourceRef s' = sourceRef initial ∧
     resuming s' = resuming initial ∧ audioContextRef s' = audioContextRef initial) ∧
  (∀ closure offset,
     playSegment closure (at_time 0)
       (segments (story silent_props) !! currentSegmentIndex initial) offset initial
     = setIsBuffering true initial).
Proof.
  apply (toggle_without_buffer silent_props (at_time 0) initial); reflexivity.
Defined.

Lemma single_active_source_witness :
  (∀ i j, active playing_first i → active playing_first j → i = j) ∧
  (∀ i, active playing_first i → sourceRef playing_first = Some i) ∧
  (∀ closure env segment offset i,
     active (startSource closure env segment offset playing_first) i →
     i = length (nodes playing_first)).
Proof.
  apply (single_active_source playing_first). apply after_reachable.
Defined.

(** Both chapters are synthesised while the parent still reports the
    generation as running; [both_ready] is the same story once it reports
    it as finished. *)
Definition still_generating : Props :=
  mkProps (mkStory [chapter 1 (Some minute); chapter 2 (Some half_minute)] 2) true.

(** The listener presses play while the generation is still reported as
    running and listens to the end; the parent reports the generation as
    finished half a minute in. *)
Definition listening : list (Props * Env * Action) :=
  [(still_generating, at_time 0, Click);
   (both_ready, at_time 30, Rerender);
   (both_ready, at_time 60, Ended 0);
   (both_ready, at_time 90, Ended 1)].

(** The same, play being pressed once the generation is reported as
    finished. *)
Definition listening_late : list (Props * Env * Action) :=
  [(both_ready, at_time 0, Click);
   (both_ready, at_time 60, Ended 0);
   (both_ready, at_time 90, Ended 1)].

Definition stuck : State := after listening.

(** C4, where the code departs from it. Chapter 2, the last one, plays out
    at a time when the story has no next segment, the next index has
    reached [totalSegmentsEstimate] and background generation is finished:
    the player should stop. But the handler that runs belongs to the render
    in which play was pressed ([handleSegmentEnd] hands its own [playSegment]
    on to the next source), and in that render [isBackgroundGenerating] was
    still true: the player advances the index and goes buffering instead,
    [isPlaying] staying true, and no later render changes that. Had play
    been pressed after the flag was cleared, the same end would have
    stopped the player. *)
Theorem segment_end_reads_stale_props :
  run listening initial = inr stuck ∧
  currentSegmentIndex stuck = 2%nat ∧
  (segments (story both_ready) !! 2%nat) ?. audioBuffer = None ∧
  totalSegmentsEstimate (story both_ready) <= 2 ∧
  isBackgroundGenerating both_ready = false ∧
  isPlaying stuck = true ∧ isBuffering stuck = true ∧ quiet stuck ∧
  (∀ env, dispatch both_ready env Rerender stuck = inr stuck) ∧
  isPlaying (after listening_late) = false ∧ isBuffering (after listening_late) = false.
Proof.
  split; [vm_compute; reflexivity|].
  split; [vm_compute; reflexivity|].
  split; [reflexivity|].
  split; [cbn; lia|].
  split; [reflexivity|].
  split; [vm_compute; reflexivity|].
  split; [vm_compute; reflexivity|].
  split; [|split; [|split]].
  - intros [|[|i]] n Hn; vm_compute in Hn; [| |discriminate Hn];
      injection Hn as <-; reflexivity.
  - intros env. vm_compute. reflexivity.
  - vm_compute. reflexivity.
  - vm_compute. reflexivity.
Qed.

(** The states above are what they are said to be. *)
Example waiting_is_buffering :
  isPlaying waiting = true ∧ isBuffering waiting = true ∧ nodes waiting = [].
Proof. repeat split. Qed.

Example playing_first_plays : now_playing playing_first 0 minute 0%Q.
Proof. split; [reflexivity|]. eexists. repeat split. Qed.

End PlayerExamples.

(** * More of the generation service *)

Module ServiceFacts.
Import Gemini ServiceProofs.

(** ** [parseInt] on digits and the sample rate *)

Lemma parse_from (l : list ascii) (acc : Z) :
  fold_left (fun acc c => 10 * acc + digit_value c) l acc
  = acc * 10 ^ Z.of_nat (length l)
    + fold_left (fun acc c => 10 * acc + digit_value c) l 0.
Proof.
  revert acc. induction l as [|c l IH]; intros acc; cbn [fold_left length].
  - cbn. lia.
  - rewrite IH, (IH (10 * 0 + digit_value c)).
    rewrite Nat2Z.inj_succ, Z.pow_succ_r by lia. lia.
Qed.

Lemma list_ascii_of_string_append (s t : string) :
  list_ascii_of_string (s +:+ t) = list_ascii_of_string s ++ list_ascii_of_string t.
Proof.
  induction s as [|c s IH]; rewrite ?append_empty, ?append_String;
    cbn [list_ascii_of_string app]; [reflexivity | now rewrite IH].
Qed.

Lemma length_list_ascii (s : string) : length (list_ascii_of_string s) = String.length s.
Proof. induction s as [|c s IH]; cbn; [reflexivity | now rewrite IH]. Qed.

(** [parseInt(.., 10)] reads digits by position: the value of [s] followed
    by [t] is the value of [s] shifted by the length of [t], plus the
    value of [t]. In particular leading zeros do not count. *)
Theorem parseInt10_append (s t : string) :
  parseInt10 (s +:+ t)
  = parseInt10 s * 10 ^ Z.of_nat (String.length t) + parseInt10 t.
Proof.
  unfold parseInt10. rewrite list_ascii_of_string_append, fold_left_app.
  now rewrite parse_from, length_list_ascii.
Qed.

Lemma digit_value_range (c : ascii) : is_digit c = true → 0 <= digit_value c <= 9.
Proof.
  unfold is_digit, digit_value. cbn zeta.
  intros [H1 H2]%andb_prop. apply Nat.leb_le in H1, H2. lia.
Qed.

Lemma parseInt10_nonneg (ds : string) : all_digits ds → 0 <= parseInt10 ds.
Proof.
  unfold parseInt10, all_digits.
  assert (H : ∀ l acc, Forall (fun c => is_digit c = true) l → 0 <= acc →
              0 <= fold_left (fun acc c => 10 * acc + digit_value c) l acc).
  { induction l as [|c l IH]; intros acc Hl Hacc; cbn [fold_left]; [exact Hacc|].
    inversion Hl as [|? ? Hc Hl']; subst. apply IH; [exact Hl'|].
    pose proof (digit_value_range c Hc). lia. }
  intros Hds. now apply H.
Qed.

(** The sample rate handed to [pcmToWav] is never negative, whatever the
    mime type says. *)
Theorem sample_rate_nonneg (mime : option string) : 0 <= sampleRateOf mime.
Proof.
  unfold sampleRateOf.
  destruct (match_rate _) as [ds|] eqn:Hm; [|lia].
  apply match_rate_sound in Hm as (pre & rest & _ & _ & Hds & _).
  now apply parseInt10_nonneg.
Qed.

(** ** Calls made and lines logged *)

Definition segmentLabel (host : Host) (segmentIndex : Z) : string :=
  String.concat "" ["Segment "; numberToString host segmentIndex; " Text Generation Error:"].

(** [generateSegment] and [generateSegmentAudio] call the model exactly
    once (no retry) and log exactly when they fail: one [console.error]
    line carrying the very error that is rethrown, nothing on success. *)
Theorem failures_logged_once (host : Host) (route : RouteDetails)
    (segmentIndex estimate : Z) (segmentOutline : string)
    (previousContext : option string)
    (text : string) (audioContext : AudioContext) (voice : option string) :
  let segment := generateSegment host route segmentIndex estimate segmentOutline
                                 previousContext in
  let audio := generateSegmentAudio host text audioContext voice in
  trace segment
    = ApiCall (segmentRequest host route segmentIndex estimate segmentOutline
                 (default "" previousContext))
      :: match outcome segment with
         | inl e => [ConsoleError (segmentLabel host segmentIndex) e]
         | inr _ => []
         end
  ∧ trace audio
    = ApiCall (audioRequest text (default "Kore" voice))
      :: match outcome audio with
         | inl e => [ConsoleError "Audio Generation Error:" e]
         | inr _ => []
         end.
Proof.
  cbn zeta. split.
  - unfold generateSegment, call, segmentLabel.
    destruct (generateContent host _) as [e | response]; [reflexivity|].
    cbn [bind].
    destruct (trim host <$> respText response) as [t|]; [|reflexivity].
    now destruct (String.eqb t "").
  - unfold generateSegmentAudio, call.
    destruct (generateContent host _) as [e | response]; [reflexivity|].
    cbn [bind].
    destruct (firstPart response ?. inlineData ?. data) as [d|]; [|reflexivity].
    destruct (String.eqb d ""); [reflexivity|].
    unfold lift. destruct (base64ToArrayBuffer host d) as [e | pcm]; [reflexivity|].
    cbn [bind]. destruct (pcmToWav host pcm _) as [e | wav]; [reflexivity|].
    cbn [bind]. now destruct (decodeAudioData audioContext wav).
Qed.

(** For a count the engine has the room for, [generateStoryOutline] calls
    the model once and logs exactly when outline generation fails: then one
    line, with the error the generation failed with, and the fallback is
    returned; a usable reply is returned, padded and cut, without any log
    line. *)
Theorem outline_logs_iff_failure (host : Host) (route : RouteDetails) (totalSegments : Z) :
  0 <= totalSegments <= MAX_ARRAY_LENGTH →
  canAllocate host totalSegments → canGrowTo host totalSegments →
  (∃ e, OutlineFailure host route totalSegments e ∧
        generateStoryOutline host route totalSegments
        = ([ApiCall (outlineRequest host route totalSegments);
            ConsoleError "Outline Generation Error:" e],
           inr (repeat OUTLINE_FALLBACK (Z.to_nat totalSegments))))
  ∨ (∃ reply, OutlineReply host route totalSegments reply ∧
        (∀ e, ¬ OutlineFailure host route totalSegments e) ∧
        generateStoryOutline host route totalSegments
        = ([ApiCall (outlineRequest host route totalSegments)],
           inr (take (Z.to_nat totalSegments)
                  (reply ++ repeat OUTLINE_PLACEHOLDER
                              (Z.to_nat (totalSegments - len reply)))))).
Proof.
  intros Hn Halloc Hgrow.
  destruct (outline_cases host route totalSegments) as [[e Hfail] | [reply Hreply]].
  - left. exists e. split; [exact Hfail|].
    rewrite (outline_failure_path host route totalSegments e Hfail).
    now rewrite Array_fill_ok.
  - right. exists reply. split; [exact Hreply|]. split.
    + intros e. now apply (reply_not_failure host route totalSegments reply).
    + now apply outline_success_path.
Qed.

(** With a negative count and a usable reply nothing is thrown:
    [slice(0, totalSegments)] counts from the end, so the reply comes back
    without its last [-totalSegments] chapters (empty when it has no more
    than that), and nothing is logged. *)
Theorem outline_negative_count_on_reply (host : Host) (route : RouteDetails)
    (totalSegments : Z) (response : Response) (t : string) (reply : list Json) :
  totalSegments < 0 →
  generateContent host (outlineRequest host route totalSegments) = inr response →
  trim host <$> respText response = Some t → t ≠ "" →
  JSON_parse host t = inr (JArr reply) → reply ≠ [] →
  generateStoryOutline host route totalSegments
  = ([ApiCall (outlineRequest host route totalSegments)],
     inr (take (length reply - Z.to_nat (- totalSegments)) reply)).
Proof.
  intros Hn Hr Ht Hne Hj Hreply. destruct reply as [|x l]; [contradiction|].
  unfold generateStoryOutline, call. cbn [bind]. rewrite Hr, Ht.
  apply String.eqb_neq in Hne. rewrite Hne. unfold lift. rewrite Hj. cbn [bind].
  rewrite pad_outline_enough by (unfold len; lia).
  cbn [bind ret try_catch app]. unfold slice0.
  destruct (totalSegments <? 0) eqn:Hneg; [|apply Z.ltb_ge in Hneg; lia].
  do 3 f_equal. unfold len. lia.
Qed.

(** ** The narrative context of a segment *)

Lemma substring_all (n : nat) (s : string) :
  (String.length s <= n)%nat → String.substring 0 n s = s.
Proof.
  revert n. induction s as [|c s IH]; intros [|n] Hn; cbn in *; try reflexivity; try lia.
  rewrite IH by lia. reflexivity.
Qed.

Lemma substring_length (a n : nat) (s : string) :
  String.length (String.substring a n s) = Nat.min n (String.length s - a).
Proof.
  revert a n. induction s as [|c s IH]; intros [|a] [|n]; cbn; try reflexivity.
  - now rewrite IH, Nat.sub_0_r.
  - rewrite IH. cbn. reflexivity.
  - apply IH.
Qed.

Lemma substring_suffix (a n : nat) (s : string) :
  (String.length s <= a + n)%nat → ∃ pre, s = pre +:+ String.substring a n s.
Proof.
  revert a n. induction s as [|c s IH]; intros a n Hn.
  - exists "". now destruct a, n.
  - destruct a as [|a].
    + exists "". rewrite substring_all by (cbn in *; lia). reflexivity.
    + cbn in Hn. destruct (IH a n) as [pre Hpre]; [lia|].
      exists (String c pre). cbn [String.substring]. rewrite append_String. now f_equal.
Qed.

Lemma slice_last_short (n : nat) (s : string) :
  (String.length s <= n)%nat → slice_last n s = s.
Proof.
  intros Hn. unfold slice_last.
  replace (String.length s - n)%nat with 0%nat by lia. now apply substring_all.
Qed.

Lemma slice_last_length (n : nat) (s : string) :
  String.length (slice_last n s) = Nat.min n (String.length s).
Proof. unfold slice_last. rewrite substring_length. lia. Qed.

Lemma slice_last_idem (n : nat) (s : string) :
  slice_last n (slice_last n s) = slice_last n s.
Proof. apply slice_last_short. rewrite slice_last_length. lia. Qed.

Lemma segmentPrompt_window (host : Host) (route : RouteDetails)
    (segmentIndex estimate : Z) (segmentOutline previousContext : string) :
  segmentPrompt host route segmentIndex estimate segmentOutline previousContext
  = segmentPrompt host route segmentIndex estimate segmentOutline
      (slice_last 1500 previousContext).
Proof. unfold segmentPrompt. now rewrite slice_last_idem. Qed.

Lemma segmentPrompt_first (host : Host) (route : RouteDetails)
    (estimate : Z) (segmentOutline c1 c2 : string) :
  segmentPrompt host route 1 estimate segmentOutline c1
  = segmentPrompt host route 1 estimate segmentOutline c2.
Proof. reflexivity. Qed.

(** [generateSegment] uses the narrative so far only through its last 1500
    characters, and not at all for segment 1: the first segment's call is
    the same whatever context is passed, and any other segment's call is the
    same as with the context cut to its last 1500 characters (a suffix of
    the context, the whole of it when it is shorter). *)
Theorem context_window (host : Host) (route : RouteDetails)
    (estimate : Z) (segmentOutline : string) :
  (∀ c1 c2,
     generateSegment host route 1 estimate segmentOutline c1
     = generateSegment host route 1 estimate segmentOutline c2) ∧
  (∀ segmentIndex context,
     generateSegment host route segmentIndex estimate segmentOutline (Some context)
     = generateSegment host route segmentIndex estimate segmentOutline
         (Some (slice_last 1500 context))) ∧
  (∀ context,
     String.length (slice_last 1500 context) = Nat.min 1500 (String.length context) ∧
     ∃ pre, context = pre +:+ slice_last 1500 context).
Proof.
  split; [|split].
  - intros c1 c2. unfold generateSegment, segmentRequest.
    now rewrite (segmentPrompt_first host route estimate segmentOutline
                   (default "" c1) (default "" c2)).
  - intros segmentIndex context. unfold generateSegment, segmentRequest.
    change (default "" (Some context)) with context.
    change (default "" (Some (slice_last 1500 context))) with (slice_last 1500 context).
    now rewrite <- segmentPrompt_window.
  - intros context. split; [apply slice_last_length|].
    unfold slice_last. apply substring_suffix. lia.
Qed.

(** ** The segment returned *)

(** A segment returned by [generateSegment] carries the index it was asked
    for and the model's text, trimmed; its text is never empty. *)
Theorem segment_returned (host : Host) (route : RouteDetails)
    (segmentIndex estimate : Z) (segmentOutline : string)
    (previousContext : option string) (segment : StorySegment) :
  outcome (generateSegment host route segmentIndex estimate segmentOutline previousContext)
    = inr segment →
  index segment = segmentIndex ∧ text segment ≠ "" ∧
  ∃ response,
    generateContent host (segmentRequest host route segmentIndex estimate segmentOutline
                            (default "" previousContext)) = inr response ∧
    trim host <$> respText response = Some (text segment).
Proof.
  rewrite segment_outcome.
  destruct (generateContent host _) as [e | response]; [discriminate|].
  destruct (trim host <$> respText response) as [t|] eqn:Ht; [|discriminate].
  destruct (String.eqb t "") eqn:Hemp; [discriminate|].
  intros [= <-]. cbn [index text]. apply String.eqb_neq in Hemp. eauto.
Qed.

(** ** The order of the sources *)

(** The source a chunk stands for, when it has both a URI and a title. *)
Definition sourceOf (chunk : GroundingChunk) : option StorySource :=
  match web chunk ?. webUri, web chunk ?. webTitle with
  | Some u, Some t =>
      if negb (String.eqb u "") && negb (String.eqb t "") then Some (mkSource t u) else None
  | _, _ => None
  end.

(** [l] without the entries whose URI is in [seen] or occurred earlier in
    [l]: the first entry of every new URI, in the order of [l]. *)
Fixpoint firstPerUri (seen : list string) (l : list StorySource) : list StorySource :=
  match l with
  | [] => []
  | x :: l =>
      if existsb (String.eqb (uri x)) seen
      then firstPerUri seen l
      else x :: firstPerUri (seen ++ [uri x]) l
  end.

Lemma find_uri_existsb (u : string) (srcs : list StorySource) :
  existsb (String.eqb u) (uri <$> srcs)
  = match find (fun s => String.eqb (uri s) u) srcs with Some _ => true | None => false end.
Proof.
  induction srcs as [|a srcs IH]; cbn; [reflexivity|].
  rewrite (String.eqb_sym u (uri a)). destruct (String.eqb (uri a) u); [reflexivity|].
  exact IH.
Qed.

Lemma addSource_sourceOf (srcs : list StorySource) (chunk : GroundingChunk) :
  addSource srcs chunk
  = match sourceOf chunk with
    | Some x => if existsb (String.eqb (uri x)) (uri <$> srcs) then srcs else srcs ++ [x]
    | None => srcs
    end.
Proof.
  unfold addSource, sourceOf.
  destruct (web chunk ?. webUri) as [u|]; cbn [truthy andb]; [|reflexivity].
  destruct (web chunk ?. webTitle) as [t|]; cbn [truthy];
    [|now destruct (negb (String.eqb u ""))].
  destruct (negb (String.eqb u "") && negb (String.eqb t "")); [|reflexivity].
  cbn [uri]. rewrite find_uri_existsb. now destruct (find _ srcs).
Qed.

Lemma fold_addSource (chunks : list GroundingChunk) (acc : list StorySource) :
  fold_left addSource chunks acc
  = acc ++ firstPerUri (uri <$> acc) (omap sourceOf chunks).
Proof.
  revert acc. induction chunks as [|chunk chunks IH]; intros acc; cbn [fold_left omap].
  - cbn. now rewrite app_nil_r.
  - rewrite addSource_sourceOf. cbn [omap list_omap].
    destruct (sourceOf chunk) as [x|]; [|apply IH].
    cbn [firstPerUri]. destruct (existsb (String.eqb (uri x)) (uri <$> acc)); [apply IH|].
    rewrite IH, fmap_app, <- app_assoc. reflexivity.
Qed.

Lemma sourceOf_cites (chunk : GroundingChunk) (x : StorySource) :
  sourceOf chunk = Some x ↔ cites chunk (uri x) (title x).
Proof.
  unfold sourceOf, cites. destruct x as [t u]. cbn [uri title].
  destruct (web chunk ?. webUri) as [u'|]; [|split; [discriminate | intros [? _]; discriminate]].
  destruct (web chunk ?. webTitle) as [t'|];
    [|split; [discriminate | intros (_ & ? & _); discriminate]].
  destruct (String.eqb_spec u' "") as [Hu|Hu];
    destruct (String.eqb_spec t' "") as [Ht|Ht]; cbn [negb andb];
    try (split; [discriminate | intros ([= ->] & [= ->] & ? & ?); contradiction]).
  split.
  - intros [= -> ->]. auto.
  - intros ([= ->] & [= ->] & _). reflexivity.
Qed.

(** The sources of a returned segment are, in the order of the response's
    grounding chunks, the first chunk of every URI among the chunks that
    have both a URI and a title: a later chunk never replaces the title
    recorded for its URI, and the order of first appearance is kept. *)
Theorem sources_in_order (host : Host) (route : RouteDetails)
    (segmentIndex estimate : Z) (segmentOutline : string)
    (previousContext : option string) (segment : StorySegment) :
  outcome (generateSegment host route segmentIndex estimate segmentOutline previousContext)
    = inr segment →
  ∃ response,
    generateContent host (segmentRequest host route segmentIndex estimate segmentOutline
                            (default "" previousContext)) = inr response ∧
    sources segment
    = match firstPerUri [] (omap sourceOf (chunksOf response)) with
      | [] => None
      | cited => Some cited
      end ∧
    ∀ chunk x, sourceOf chunk = Some x ↔ cites chunk (uri x) (title x).
Proof.
  rewrite segment_outcome.
  destruct (generateContent host _) as [e | response]; [discriminate|].
  destruct (trim host <$> respText response) as [t|]; [|discriminate].
  destruct (String.eqb t ""); [discriminate|].
  intros [= <-]. exists response. split; [reflexivity|].
  split; [|apply sourceOf_cites]. cbn [sources].
  rewrite collectSources_chunksOf, fold_addSource. cbn [fmap list_fmap app].
  now destruct (firstPerUri [] _).
Qed.

End ServiceFacts.

(** * More of the player *)

Module PlayerFacts.
Import Player PlayerProofs.

Lemma now_playing_frame (s s' : State) (i : nat) (b : AudioBuffer) (offset : Q) :
  nodes s' = nodes s → sourceRef s' = sourceRef s →
  now_playing s i b offset → now_playing s' i b offset.
Proof. unfold now_playing. now intros -> ->. Qed.

Lemma quiet_frame (s s' : State) : nodes s' = nodes s → quiet s → quiet s'.
Proof. unfold quiet. now intros ->. Qed.

Lemma quiet_not_active (s : State) (i : nat) : quiet s → ¬ active s i.
Proof. intros Hq (n & Hi & Hp). now rewrite (Hq i n Hi) in Hp. Qed.

(** A node that plays shows that the context exists and is not suspended. *)
Lemma active_context_ready (s : State) (i : nat) :
  reachable s → active s i → context_ready s.
Proof.
  intros [Hinv _]%reachable_inv (n & Hi & _).
  apply (inv_context s Hinv). intros Hnil. now rewrite Hnil in Hi.
Qed.

Lemma playSegment_buffering (closure : Props) (env : Env) (segment : StorySegment)
    (offset : Q) (s : State) (b : AudioBuffer) :
  audioBuffer segment = Some b →
  isBuffering (playSegment closure env (Some segment) offset s) = isBuffering s.
Proof.
  intros Hb.
  destruct (ensureContext_fields env s) as (_ & _ & _ & _ & Hbuf).
  destruct (playSegment_cases closure env segment offset s b Hb) as [[_ ->] | [_ ->]].
  - exact Hbuf.
  - destruct (startSource_other_fields closure env segment offset (ensureContext env s))
      as (_ & _ & _ & -> & _). exact Hbuf.
Qed.

(** ** The buffer-ready effect *)

(** After any turn of the event loop the player is not left waiting for a
    buffer that is there: [isBuffering] and [isPlaying] are not both set
    while the current segment, in the props of that render, has an audio
    buffer. *)
Theorem never_waits_for_ready_buffer (props : Props) (env : Env) (a : Action)
    (s s' : State) :
  dispatch props env a s = inr s' → a ≠ Unmount →
  ¬ (isBuffering s' = true ∧ isPlaying s' = true ∧
     is_Some ((segments (story props) !! currentSegmentIndex s') ?. audioBuffer)).
Proof.
  intros Hstep Hnot. unfold dispatch in Hstep.
  destruct (handle props env a s) as [e | s1]; [discriminate|].
  assert (Hs' : s' = commit props env s1) by (destruct a; congruence).
  subst s'. clear Hstep. unfold commit.
  set (s0 := syncIndexRef s1). unfold bufferReadyEffect.
  destruct (isBuffering s0 && isPlaying s0) eqn:Hcond.
  - destruct (segments (story props) !! currentSegmentIndex s0) as [segment|] eqn:Hseg.
    + cbn [mbind option_bind]. destruct (audioBuffer segment) as [b|] eqn:Hb.
      * intros (Hbuf & _). rewrite (playSegment_buffering _ _ _ _ _ b Hb) in Hbuf.
        discriminate.
      * rewrite Hseg. cbn. rewrite Hb. intros (_ & _ & [? ?]). discriminate.
    + cbn [mbind option_bind]. rewrite Hseg. intros (_ & _ & [? ?]). discriminate.
  - intros (H1 & H2 & _). rewrite H1, H2 in Hcond. discriminate.
Qed.

(** ** The segment index *)

Lemma togglePlayback_index (props : Props) (env : Env) (s : State) :
  currentSegmentIndex (togglePlayback props env s) = currentSegmentIndex s.
Proof.
  unfold togglePlayback. destruct (isPlaying s).
  - cbn [currentSegmentIndex setAutoScroll setIsPlaying].
    destruct (stopAudio_other_fields
                match audioContextRef s with
                | Some _ => if negb (isBuffering s)
                            then set_segmentOffsetRef (subtract env (currentTime env) (startTimeRef s)) s
                            else s
                | None => s
                end) as (_ & _ & _ & _ & -> & _).
    destruct (audioContextRef s); [now destruct (negb (isBuffering s)) | reflexivity].
  - destruct (_ ?. audioBuffer); [|reflexivity].
    cbn [currentSegmentIndex setAutoScroll].
    now destruct (playSegment_index props env
                    (segments (story props) !! currentSegmentIndex s) (segmentOffsetRef s)
                    (setIsBuffering false (setIsPlaying true s))) as (-> & _).
Qed.

Lemma resumed_index (env : Env) (s : State) :
  currentSegmentIndex (resumed env s) = currentSegmentIndex s.
Proof.
  unfold resumed. destruct (resuming s) as [|[[segment offset] closure] rest]; [reflexivity|].
  cbn [audioContextRef set_resuming].
  destruct (audioContextRef s) as [[| |]|]; try reflexivity;
    now destruct (startSource_other_fields closure env segment offset
                    (set_audioContextRef (Some running) (set_resuming rest s)))
      as (_ & _ & _ & _ & -> & _).
Qed.

Lemma handleSegmentEnd_index (closure : Props) (env : Env) (s : State) :
  currentSegmentIndex (handleSegmentEnd closure env s) = S (indexRef s).
Proof.
  unfold handleSegmentEnd. rewrite Nat.add_1_r.
  destruct (_ ?. audioBuffer).
  - now destruct (playSegment_index closure env
                    (segments (story closure) !! S (indexRef s)) 0%Q
                    (set_segmentOffsetRef 0%Q (setCurrentSegmentIndex (S (indexRef s)) s)))
      as (-> & _).
  - now destruct (_ && _).
Qed.

Lemma sourceEnded_index (i : nat) (env : Env) (s s' : State) :
  sourceEnded i env s = inr s' →
  currentSegmentIndex s' = currentSegmentIndex s ∨ currentSegmentIndex s' = S (indexRef s).
Proof.
  unfold sourceEnded.
  destruct (nodes s !! i) as [n|]; [|intros [= <-]; now left].
  destruct (playing n); [|intros [= <-]; now left].
  destruct (onended n) as [[segment closure]|]; [|intros [= <-]; now left].
  destruct (audioBuffer segment); [|discriminate].
  cbn [audioContextRef set_nodes].
  destruct (audioContextRef s); [|intros [= <-]; now left].
  destruct (Qle_bool _ _); intros [= <-]; [right | now left].
  now rewrite handleSegmentEnd_index.
Qed.

(** Between two turns [indexRef.current] equals [currentSegmentIndex]; a
    turn never moves the index backwards and moves it by at most one, and
    only the end of a source moves it at all. *)
Theorem index_advances_on_end_only (props : Props) (env : Env) (a : Action)
    (s s' : State) :
  reachable s → dispatch props env a s = inr s' →
  indexRef s = currentSegmentIndex s ∧ indexRef s' = currentSegmentIndex s' ∧
  (currentSegmentIndex s' = currentSegmentIndex s ∨
   (currentSegmentIndex s' = S (currentSegmentIndex s) ∧ ∃ i, a = Ended i)).
Proof.
  intros Hs Hstep.
  assert (Hs' : reachable s') by (eapply reach_step; eassumption).
  apply reachable_inv in Hs as [_ Hidx], Hs' as [_ Hidx'].
  split; [exact Hidx|]. split; [exact Hidx'|].
  unfold dispatch in Hstep.
  destruct (handle props env a s) as [e | s1] eqn:Hh; [discriminate|].
  assert (Hcommit : currentSegmentIndex s' = currentSegmentIndex s1).
  { destruct a; injection Hstep as <-; try reflexivity;
      unfold commit;
      now destruct (bufferReadyEffect_index props env (syncIndexRef s1)) as [-> _]. }
  rewrite Hcommit. destruct a; cbn [handle] in Hh; try injection Hh as <-.
  - left. apply togglePlayback_index.
  - now left.
  - destruct (sourceEnded_index i env s s1 Hh) as [-> | ->]; [now left|].
    right. rewrite Hidx. eauto.
  - left. apply resumed_index.
  - now left.
  - left. now destruct (unmount_index s) as [-> _].
Qed.

(** ** Pausing and playing *)

(** What [togglePlayback] records before it stops the audio. *)
Definition rememberOffset (env : Env) (s : State) : State :=
  match audioContextRef s with
  | Some _ =>
      if negb (isBuffering s)
      then set_segmentOffsetRef (subtract env (currentTime env) (startTimeRef s)) s
      else s
  | None => s
  end.

Lemma rememberOffset_fields (env : Env) (s : State) :
  nodes (rememberOffset env s) = nodes s ∧
  sourceRef (rememberOffset env s) = sourceRef s ∧
  audioContextRef (rememberOffset env s) = audioContextRef s ∧
  resuming (rememberOffset env s) = resuming s ∧
  isBuffering (rememberOffset env s) = isBuffering s ∧
  currentSegmentIndex (rememberOffset env s) = currentSegmentIndex s.
Proof.
  unfold rememberOffset.
  destruct (audioContextRef s) eqn:Hc; [destruct (negb (isBuffering s))|];
    cbn; rewrite ?Hc; repeat split.
Qed.

Lemma stopAudio_refs (s : State) :
  segmentOffsetRef (stopAudio s) = segmentOffsetRef s ∧
  startTimeRef (stopAudio s) = startTimeRef s ∧
  autoScroll (stopAudio s) = autoScroll s.
Proof. unfold stopAudio. now destruct (sourceRef s). Qed.

(** The turn of a click while playing. *)
Lemma pause_turn (props : Props) (env : Env) (s : State) :
  isPlaying s = true →
  dispatch props env Click s
  = inr (syncIndexRef
           (setAutoScroll false (setIsPlaying false (stopAudio (rememberOffset env s))))).
Proof.
  intros Hp. unfold dispatch, handle, togglePlayback. rewrite Hp.
  fold (rememberOffset env s). unfold commit, bufferReadyEffect.
  cbn [isBuffering isPlaying syncIndexRef set_indexRef setAutoScroll setIsPlaying].
  now rewrite andb_false_r.
Qed.

(** Pausing stops the source the player holds, so that nothing plays any
    more, clears [isPlaying] and [autoScroll], and remembers how far the
    segment had played ([currentTime - startTimeRef]) unless the player was
    buffering or has no audio context yet, in which case the remembered
    offset stays as it was. *)
Theorem pause_stops_audio (props : Props) (env : Env) (s : State) :
  reachable s → isPlaying s = true →
  ∃ s', dispatch props env Click s = inr s' ∧
    isPlaying s' = false ∧ autoScroll s' = false ∧ isBuffering s' = isBuffering s ∧
    quiet s' ∧ sourceRef s' = None ∧
    currentSegmentIndex s' = currentSegmentIndex s ∧
    (isBuffering s = false → is_Some (audioContextRef s) →
       segmentOffsetRef s' = (subtract env (currentTime env) (startTimeRef s))) ∧
    (isBuffering s = true ∨ audioContextRef s = None →
       segmentOffsetRef s' = segmentOffsetRef s).
Proof.
  intros [Hinv _]%reachable_inv Hp. eexists. split; [now apply pause_turn|].
  destruct (rememberOffset_fields env s) as (Hn & Hs & Hc & Hq & Hb & Hi).
  destruct (stopAudio_other_fields (rememberOffset env s)) as (_ & _ & _ & Hb' & Hi' & _).
  destruct (stopAudio_refs (rememberOffset env s)) as (Ho & _ & _).
  cbn [isPlaying autoScroll isBuffering sourceRef currentSegmentIndex segmentOffsetRef
       syncIndexRef set_indexRef setAutoScroll setIsPlaying].
  rewrite Hb', Hb, Hi', Hi, Ho, stopAudio_sourceRef.
  repeat split.
  - apply (quiet_frame (stopAudio (rememberOffset env s))); [reflexivity|].
    apply stopAudio_quiet. intros i n. rewrite Hn, Hs. apply (inv_single s Hinv).
  - intros Hbuf [c Hctx]. unfold rememberOffset. now rewrite Hctx, Hbuf.
  - intros [Hbuf | Hctx]; unfold rememberOffset.
    + rewrite Hbuf. now destruct (audioContextRef s).
    + now rewrite Hctx.
Qed.

(** The turn of a click while paused, with a buffer for the current segment
    and an audio context that is not suspended. *)
Lemma play_turn (props : Props) (env : Env) (s : State)
    (segment : StorySegment) (b : AudioBuffer) :
  isPlaying s = false →
  segments (story props) !! currentSegmentIndex s = Some segment →
  audioBuffer segment = Some b →
  context_after env s ≠ suspended →
  dispatch props env Click s
  = inr (syncIndexRef
           (setAutoScroll true
              (startSource props env segment (segmentOffsetRef s)
                 (ensureContext env (setIsBuffering false (setIsPlaying true s)))))).
Proof.
  intros Hp Hseg Hb Hctx. unfold dispatch, handle, togglePlayback.
  rewrite Hp, Hseg. cbn [mbind option_bind]. rewrite Hb.
  set (s0 := setIsBuffering false (setIsPlaying true s)).
  destruct (playSegment_cases props env segment (segmentOffsetRef s) s0 b Hb)
    as [[Hsus _] | [_ ->]]; [contradiction|].
  unfold commit, bufferReadyEffect.
  destruct (startSource_other_fields props env segment (segmentOffsetRef s)
              (ensureContext env s0)) as (_ & _ & _ & Hbuf & _).
  destruct (ensureContext_fields env s0) as (_ & _ & _ & _ & Hbuf0).
  cbn [isBuffering isPlaying syncIndexRef set_indexRef setAutoScroll].
  now rewrite Hbuf, Hbuf0.
Qed.

Lemma play_turn_state (props : Props) (env : Env) (s : State)
    (segment : StorySegment) (b : AudioBuffer) :
  single_source s → audioBuffer segment = Some b →
  let s' := syncIndexRef
              (setAutoScroll true
                 (startSource props env segment (segmentOffsetRef s)
                    (ensureContext env (setIsBuffering false (setIsPlaying true s))))) in
  isPlaying s' = true ∧ isBuffering s' = false ∧ autoScroll s' = true ∧
  now_playing s' (length (nodes s)) b (segmentOffsetRef s) ∧
  (∀ j, active s' j → j = length (nodes s)) ∧
  startTimeRef s' = (subtract env (currentTime env) (segmentOffsetRef s)) ∧
  currentSegmentIndex s' = currentSegmentIndex s.
Proof.
  intros Hsingle Hb. cbn zeta.
  set (s0 := setIsBuffering false (setIsPlaying true s)).
  destruct (ensureContext_fields env s0) as (_ & Hn & _ & Hp & Hbuf).
  destruct (startSource_other_fields props env segment (segmentOffsetRef s)
              (ensureContext env s0)) as (_ & _ & Hp' & Hbuf' & Hi' & _).
  cbn [isPlaying isBuffering autoScroll startTimeRef currentSegmentIndex
       syncIndexRef set_indexRef setAutoScroll].
  rewrite Hp', Hp, Hbuf', Hbuf, Hi'.
  assert (Hlen : length (nodes (ensureContext env s0)) = length (nodes s)) by now rewrite Hn.
  split; [reflexivity|]. split; [reflexivity|]. split; [reflexivity|].
  split; [|split; [|split]].
  - rewrite <- Hlen. eapply now_playing_frame; [reflexivity | reflexivity |].
    now apply startSource_now_playing.
  - intros j (n & Hj & Hpl). rewrite <- Hlen.
    apply (startSource_only_new props env segment (segmentOffsetRef s)
             (ensureContext env s0) j n); [|exact Hj | exact Hpl].
    intros i m. rewrite Hn. unfold ensureContext.
    destruct (audioContextRef s0); apply Hsingle.
  - reflexivity.
  - unfold ensureContext. now destruct (audioContextRef s0).
Qed.

Lemma play_resumes_from_offset_aux (props : Props) (env : Env) (s : State)
    (segment : StorySegment) (b : AudioBuffer) :
  reachable s → isPlaying s = false →
  segments (story props) !! currentSegmentIndex s = Some segment →
  audioBuffer segment = Some b →
  context_after env s ≠ suspended →
  ∃ s', dispatch props env Click s = inr s' ∧
    isPlaying s' = true ∧ isBuffering s' = false ∧ autoScroll s' = true ∧
    now_playing s' (length (nodes s)) b (segmentOffsetRef s) ∧
    (∀ j, active s' j → j = length (nodes s)) ∧
    startTimeRef s' = (subtract env (currentTime env) (segmentOffsetRef s)) ∧
    currentSegmentIndex s' = currentSegmentIndex s.
Proof.
  intros [Hinv _]%reachable_inv Hp Hseg Hb Hctx.
  eexists. split; [now apply (play_turn props env s segment b)|].
  apply play_turn_state; [apply (inv_single s Hinv) | exact Hb].
Qed.

(** Pressing play while paused, with an audio buffer for the current segment
    and an audio context that is (or is created) not suspended, plays that
    buffer from the remembered offset: it becomes the one source playing,
    with the start time set back by the offset. *)
Theorem play_resumes_from_offset (props : Props) (env : Env) (s : State)
    (segment : StorySegment) (b : AudioBuffer) :
  reachable s → isPlaying s = false →
  segments (story props) !! currentSegmentIndex s = Some segment →
  audioBuffer segment = Some b →
  context_after env s ≠ suspended →
  ∃ s', dispatch props env Click s = inr s' ∧
    isPlaying s' = true ∧ isBuffering s' = false ∧ autoScroll s' = true ∧
    now_playing s' (length (nodes s)) b (segmentOffsetRef s) ∧
    (∀ j, active s' j → j = length (nodes s)) ∧
    startTimeRef s' = (subtract env (currentTime env) (segmentOffsetRef s)) ∧
    currentSegmentIndex s' = currentSegmentIndex s.
Proof. apply play_resumes_from_offset_aux. Qed.

(** Pause, then play: a segment that was playing goes on from where it was
    paused. After the pause nothing plays; after the play the segment's
    buffer is the one source playing, started at the position the pause
    stored (the runtime's [currentTime - startTimeRef] at the pause), and
    the start time is set back from the time of the restart by that
    position. *)
Theorem pause_then_play_continues (pausedProps props : Props) (pauseEnv env : Env)
    (s : State) (i : nat) (segment : StorySegment) (b : AudioBuffer) :
  reachable s → isPlaying s = true → isBuffering s = false → active s i →
  segments (story props) !! currentSegmentIndex s = Some segment →
  audioBuffer segment = Some b →
  let position := subtract pauseEnv (currentTime pauseEnv) (startTimeRef s) in
  ∃ s1 s2,
    dispatch pausedProps pauseEnv Click s = inr s1 ∧
    dispatch props env Click s1 = inr s2 ∧
    quiet s1 ∧ isPlaying s1 = false ∧ segmentOffsetRef s1 = position ∧
    isPlaying s2 = true ∧
    now_playing s2 (length (nodes s)) b position ∧
    (∀ j, active s2 j → j = length (nodes s)) ∧
    startTimeRef s2 = subtract env (currentTime env) position.
Proof.
  intros Hs Hp Hbuf Hact Hseg Hb position.
  destruct (active_context_ready s i Hs Hact) as (c & Hc & Hne).
  pose proof Hs as [Hinv _]%reachable_inv.
  set (s1 := syncIndexRef
               (setAutoScroll false (setIsPlaying false (stopAudio (rememberOffset pauseEnv s))))).
  assert (Hstep1 : dispatch pausedProps pauseEnv Click s = inr s1) by now apply pause_turn.
  assert (Hs1 : reachable s1) by (eapply reach_step; eassumption).
  destruct (rememberOffset_fields pauseEnv s) as (Hn & Hsrc & Hctx & _ & _ & Hidx).
  destruct (stopAudio_other_fields (rememberOffset pauseEnv s)) as (Hctx' & _ & _ & _ & Hidx' & _).
  destruct (stopAudio_refs (rememberOffset pauseEnv s)) as (Hoff & _ & _).
  assert (Hoff1 : segmentOffsetRef s1 = position).
  { subst s1. cbn [segmentOffsetRef syncIndexRef set_indexRef setAutoScroll setIsPlaying].
    rewrite Hoff. unfold rememberOffset. now rewrite Hc, Hbuf. }
  assert (Hlen1 : length (nodes s1) = length (nodes s)).
  { subst s1. cbn [nodes syncIndexRef set_indexRef setAutoScroll setIsPlaying].
    now rewrite stopAudio_length, Hn. }
  assert (Hidx1 : currentSegmentIndex s1 = currentSegmentIndex s).
  { subst s1. cbn [currentSegmentIndex syncIndexRef set_indexRef setAutoScroll setIsPlaying].
    now rewrite Hidx', Hidx. }
  assert (Hctx1 : context_after env s1 ≠ suspended).
  { unfold context_after. subst s1.
    cbn [audioContextRef syncIndexRef set_indexRef setAutoScroll setIsPlaying].
    now rewrite Hctx', Hctx, Hc. }
  assert (Hquiet1 : quiet s1).
  { apply (quiet_frame (stopAudio (rememberOffset pauseEnv s))); [reflexivity|].
    apply stopAudio_quiet. intros j n. rewrite Hn, Hsrc. apply (inv_single s Hinv). }
  destruct (play_resumes_from_offset_aux props env s1 segment b) as (s2 & Hstep2 & Hfacts);
    try assumption; [reflexivity | now rewrite Hidx1 |].
  destruct Hfacts as (Hp2 & _ & _ & Hnow & Honly & Hstart & _).
  exists s1, s2. rewrite Hoff1, Hlen1 in *.
  split; [exact Hstep1|]. split; [exact Hstep2|]. split; [exact Hquiet1|].
  split; [reflexivity|]. split; [reflexivity|]. split; [exact Hp2|].
  split; [exact Hnow|]. split; [exact Honly | exact Hstart].
Qed.

(** ** The end of a source *)

(** The turn in which node [i] plays out, up to the handler's test of the
    elapsed time. *)
Lemma ended_turn (env : Env) (s : State) (i : nat) (n : SourceNode)
    (segment : StorySegment) (closure : Props) (b : AudioBuffer) :
  reachable s →
  nodes s !! i = Some n → playing n = true →
  onended n = Some (segment, closure) → audioBuffer segment = Some b →
  sourceEnded i env s
  = inr (let s1 := set_nodes (alter finish i (nodes s)) s in
         if Qle_bool (subtract env (duration b) (1 # 2)) (subtract env (currentTime env) (startTimeRef s))
         then handleSegmentEnd closure env s1 else s1)
  ∧ quiet (set_nodes (alter finish i (nodes s)) s).
Proof.
  intros Hs Hi Hp Hh Hb.
  destruct (active_context_ready s i Hs) as (c & Hc & _); [now exists n|].
  apply reachable_inv in Hs as [Hinv _]. split.
  - unfold sourceEnded. rewrite Hi, Hp, Hh, Hb. cbn [audioContextRef set_nodes startTimeRef].
    rewrite Hc. now destruct (Qle_bool _ _).
  - now apply (finished_quiet i n s (inv_single s Hinv)).
Qed.

Lemma bufferReadyEffect_isPlaying (props : Props) (env : Env) (s : State) :
  isPlaying (bufferReadyEffect props env s) = isPlaying s.
Proof.
  unfold bufferReadyEffect.
  destruct (_ && _); [|reflexivity].
  destruct (_ ?. audioBuffer); [|reflexivity].
  now destruct (playSegment_index props env (segments (story props) !! currentSegmentIndex s)
                  0%Q (setIsBuffering false s)) as (_ & _ & ->).
Qed.

(** A source whose [onended] fires while the handler's test fails (the
    elapsed time the runtime computes is below its [duration - 0.5]) does
    not advance the story: after that turn the index and [isPlaying] are as
    they were. If moreover the player was not buffering, the turn starts
    nothing: no source plays, none is queued and none was created. *)
Theorem early_end_does_not_advance (props : Props) (env : Env) (s : State) (i : nat)
    (n : SourceNode) (segment : StorySegment) (closure : Props) (b : AudioBuffer) :
  reachable s →
  nodes s !! i = Some n → playing n = true →
  onended n = Some (segment, closure) → audioBuffer segment = Some b →
  Qle_bool (subtract env (duration b) (1 # 2)) (subtract env (currentTime env) (startTimeRef s)) = false →
  ∃ s', dispatch props env (Ended i) s = inr s' ∧
    currentSegmentIndex s' = currentSegmentIndex s ∧
    isPlaying s' = isPlaying s ∧
    (isBuffering s = false →
       isBuffering s' = false ∧ quiet s' ∧ resuming s' = resuming s ∧
       length (nodes s') = length (nodes s)).
Proof.
  intros Hs Hi Hp Hh Hb Hearly.
  destruct (ended_turn env s i n segment closure b Hs Hi Hp Hh Hb) as [Hturn Hquiet].
  rewrite Hearly in Hturn. cbn zeta in Hturn.
  unfold dispatch, handle. rewrite Hturn. unfold commit.
  set (s1 := set_nodes (alter finish i (nodes s)) s) in *.
  eexists. split; [reflexivity|].
  split; [|split].
  - now destruct (bufferReadyEffect_index props env (syncIndexRef s1)) as [-> _].
  - now rewrite bufferReadyEffect_isPlaying.
  - intros Hbuf. unfold bufferReadyEffect.
    change (isBuffering (syncIndexRef s1)) with (isBuffering s). rewrite Hbuf.
    cbn [andb]. repeat split; try assumption.
    cbn [nodes syncIndexRef set_indexRef]. subst s1. cbn [nodes set_nodes].
    apply length_alter.
Qed.

(** The end of the story, when the props have not changed since the last
    segment's source was started (the handler's closure is the props of the
    turn): with no segment after it, the index at or past the estimate and
    generation over, playback stops with the index one past that segment; a
    later press on play, as long as no segment has appeared there, only sets
    the buffering flag and plays nothing. *)
Theorem story_end_then_play (props : Props) (env : Env) (s : State) (i : nat)
    (n : SourceNode) (segment : StorySegment) (b : AudioBuffer) :
  reachable s →
  nodes s !! i = Some n → playing n = true →
  onended n = Some (segment, props) → audioBuffer segment = Some b →
  Qle_bool (subtract env (duration b) (1 # 2)) (subtract env (currentTime env) (startTimeRef s)) = true →
  segments (story props) !! S (currentSegmentIndex s) = None →
  totalSegmentsEstimate (story props) <= Z.of_nat (S (currentSegmentIndex s)) →
  isBackgroundGenerating props = false →
  ∃ s1, dispatch props env (Ended i) s = inr s1 ∧
    isPlaying s1 = false ∧ quiet s1 ∧
    currentSegmentIndex s1 = S (currentSegmentIndex s) ∧
    ∀ props' env',
      segments (story props') !! S (currentSegmentIndex s) = None →
      ∃ s2, dispatch props' env' Click s1 = inr s2 ∧
        isPlaying s2 = true ∧ isBuffering s2 = true ∧ quiet s2 ∧
        currentSegmentIndex s2 = S (currentSegmentIndex s).
Proof.
  intros Hs Hi Hp Hh Hb Hdone Hnext Hest Hbg.
  destruct (ended_turn env s i n segment props b Hs Hi Hp Hh Hb) as [Hturn Hquiet].
  pose proof Hs as [_ Hidx]%reachable_inv.
  rewrite Hdone in Hturn. cbn zeta in Hturn.
  unfold handleSegmentEnd in Hturn.
  change (indexRef (set_nodes (alter finish i (nodes s)) s)) with (indexRef s) in Hturn.
  rewrite Hidx, Nat.add_1_r, Hnext in Hturn. cbn [mbind option_bind] in Hturn.
  apply Z.leb_le in Hest. rewrite Hest, Hbg in Hturn. cbn [andb negb] in Hturn.
  set (s0 := setIsPlaying false _) in Hturn.
  exists (syncIndexRef s0). split; [|split; [|split; [|split]]].
  - unfold dispatch, handle. rewrite Hturn. unfold commit, bufferReadyEffect.
    cbn [isBuffering isPlaying syncIndexRef set_indexRef]. subst s0.
    cbn [isPlaying setIsPlaying]. now rewrite andb_false_r.
  - reflexivity.
  - exact Hquiet.
  - reflexivity.
  - intros props' env' Hnone.
    exists (syncIndexRef (setIsBuffering true (setIsPlaying true (syncIndexRef s0)))).
    split; [|split; [|split; [|split]]]; try reflexivity; [|exact Hquiet].
    unfold dispatch, handle, togglePlayback.
    change (isPlaying (syncIndexRef s0)) with false. cbn [negb].
    change (currentSegmentIndex (syncIndexRef s0)) with (S (currentSegmentIndex s)).
    rewrite Hnone. cbn [mbind option_bind].
    unfold commit, bufferReadyEffect.
    change (currentSegmentIndex
              (syncIndexRef (setIsBuffering true (setIsPlaying true (syncIndexRef s0)))))
      with (S (currentSegmentIndex s)).
    rewrite Hnone. cbn [mbind option_bind]. reflexivity.
Qed.

(** ** Pending starts *)

(** Pausing does not cancel a start that waits for [resume()]: the queued
    call of [playSegment] goes on when the resume settles, and its segment
    plays although [isPlaying] is false. *)
Theorem pause_keeps_pending_start (props : Props) (env : Env) (s : State)
    (segment : StorySegment) (offset : Q) (closure : Props)
    (rest : list (StorySegment * Q * Props)) (c : ContextState) (b : AudioBuffer) :
  isPlaying s = true →
  resuming s = (segment, offset, closure) :: rest →
  audioContextRef s = Some c → c ≠ closed →
  audioBuffer segment = Some b →
  ∃ s1, dispatch props env Click s = inr s1 ∧
    isPlaying s1 = false ∧ resuming s1 = resuming s ∧
    ∀ props' env',
      ∃ s2, dispatch props' env' Resumed s1 = inr s2 ∧
        isPlaying s2 = false ∧ now_playing s2 (length (nodes s)) b offset.
Proof.
  intros Hp Hq Hc Hne Hb.
  destruct (rememberOffset_fields env s) as (Hn & _ & Hctx & Hres & _).
  destruct (stopAudio_other_fields (rememberOffset env s)) as (Hctx' & Hres' & _).
  set (s1 := syncIndexRef
               (setAutoScroll false (setIsPlaying false (stopAudio (rememberOffset env s))))).
  assert (Hq1 : resuming s1 = (segment, offset, closure) :: rest).
  { subst s1. cbn [resuming syncIndexRef set_indexRef setAutoScroll setIsPlaying].
    now rewrite Hres', Hres. }
  assert (Hc1 : audioContextRef s1 = Some c).
  { subst s1. cbn [audioContextRef syncIndexRef set_indexRef setAutoScroll setIsPlaying].
    now rewrite Hctx', Hctx. }
  exists s1. split; [now apply pause_turn|]. split; [reflexivity|].
  split; [now rewrite Hq1|].
  intros props' env'.
  pose proof (resumed_pops env' s1 segment offset closure rest c Hq1 Hc1 Hne) as Hres1.
  set (s0 := set_audioContextRef (Some running) (set_resuming rest s1)) in Hres1.
  destruct (startSource_other_fields closure env' segment offset s0) as (_ & _ & Hplay & _).
  assert (Hplay2 : isPlaying (resumed env' s1) = false) by now rewrite Hres1, Hplay.
  exists (syncIndexRef (resumed env' s1)). split; [|split].
  - unfold dispatch, handle, commit, bufferReadyEffect.
    cbn [isBuffering isPlaying syncIndexRef set_indexRef].
    now rewrite Hplay2, andb_false_r.
  - exact Hplay2.
  - apply (now_playing_frame (resumed env' s1)); [reflexivity | reflexivity |].
    rewrite Hres1.
    replace (length (nodes s)) with (length (nodes s0)).
    + now apply startSource_now_playing.
    + subst s0 s1. cbn. now rewrite stopAudio_length, Hn.
Qed.

(** ** Unmounting *)

Lemma resumed_without_context (env : Env) (s : State) :
  audioContextRef s = Some closed ∨ audioContextRef s = None →
  nodes (resumed env s) = nodes s ∧ sourceRef (resumed env s) = sourceRef s ∧
  audioContextRef (resumed env s) = audioContextRef s.
Proof.
  intros Hc. unfold resumed.
  destruct (resuming s) as [|[[segment offset] closure] rest]; [easy|].
  cbn [audioContextRef set_resuming nodes sourceRef].
  destruct Hc as [Hc | Hc]; rewrite Hc; repeat split; exact Hc.
Qed.

Lemma settle_without_context (k : nat) (env : Env) (s : State) :
  audioContextRef s = Some closed ∨ audioContextRef s = None →
  nodes (settle_n k env s) = nodes s ∧ sourceRef (settle_n k env s) = sourceRef s.
Proof.
  revert s. induction k as [|k IH]; intros s Hc; cbn [settle_n]; [easy|].
  destruct (resumed_without_context env s Hc) as (Hn & Hs & Hctx).
  destruct (IH (resumed env s)) as [-> ->]; [now rewrite Hctx | easy].
Qed.

(** Unmounting stops whatever plays and closes the audio context; from then
    on no pending [resume()], however many settle, starts a source. *)
Theorem unmount_silences (props : Props) (env : Env) (s : State) :
  reachable s →
  ∃ s', dispatch props env Unmount s = inr s' ∧
    quiet s' ∧ sourceRef s' = None ∧
    (is_Some (audioContextRef s) → audioContextRef s' = Some closed) ∧
    ∀ k env', quiet (settle_n k env' s') ∧ sourceRef (settle_n k env' s') = None.
Proof.
  intros [Hinv _]%reachable_inv. exists (unmount s). split; [reflexivity|].
  destruct (stopAudio_other_fields s) as (Hc & _).
  assert (Hquiet : quiet (unmount s)).
  { apply (quiet_frame (stopAudio s)).
    - unfold unmount. now destruct (audioContextRef (stopAudio s)).
    - apply stopAudio_quiet, Hinv. }
  assert (Hsrc : sourceRef (unmount s) = None).
  { unfold unmount. pose proof (stopAudio_sourceRef s).
    now destruct (audioContextRef (stopAudio s)). }
  assert (Hctx : audioContextRef (unmount s) = Some closed ∨ audioContextRef (unmount s) = None).
  { unfold unmount. destruct (audioContextRef (stopAudio s)) eqn:H; [now left | now right]. }
  split; [exact Hquiet|]. split; [exact Hsrc|]. split.
  - intros [c Hsome]. unfold unmount. rewrite Hc, Hsome. reflexivity.
  - intros k env'. destruct (settle_without_context k env' (unmount s) Hctx) as [Hn Hs].
    split; [now apply (quiet_frame (unmount s)) | now rewrite Hs].
Qed.

End PlayerFacts.

(** * What the component renders *)

Module View.
Import Player.

(** The three looks of a paragraph of the transcript (line 212). *)
Definition HIGHLIGHTED : string := "opacity-100 scale-100".
Definition DIMMED : string := "opacity-60".
Definition HIDDEN : string := "opacity-0 translate-y-10".

(** The part of a paragraph's [className] that depends on the state. *)
Definition segmentLook (segmentIndex : Z) (currentSegmentIndex : nat) : string :=
  if segmentIndex =? Z.of_nat currentSegmentIndex + 1 then HIGHLIGHTED
  else if segmentIndex <=? Z.of_nat currentSegmentIndex then DIMMED
  else HIDDEN.

Definition segmentClassName (segmentIndex : Z) (currentSegmentIndex : nat) : string :=
  String.concat "" ["transition-all duration-1000 "; segmentLook segmentIndex currentSegmentIndex].

(** The links under a paragraph, as (href, label) pairs: rendered when
    [segment.sources && segment.sources.length > 0] (lines 218-239). *)
Definition sourceLinks (segment : StorySegment) : list (string * string) :=
  match sources segment with
  | Some srcs =>
      if 0 <? Gemini.len srcs then (fun src => (uri src, title src)) <$> srcs else []
  | None => []
  end.

(** In a story whose segments are numbered from 1 in list order (as
    [generateSegment] numbers them, segment 1 being the first), the
    paragraph highlighted is the one at [currentSegmentIndex]; those before
    it are dimmed and those after it hidden. *)
Theorem transcript_highlights_current (segs : list StorySegment) (current k : nat)
    (segment : StorySegment) :
  (∀ j seg, segs !! j = Some seg → index seg = Z.of_nat j + 1) →
  segs !! k = Some segment →
  (segmentLook (index segment) current = HIGHLIGHTED ↔ k = current) ∧
  (segmentLook (index segment) current = DIMMED ↔ (k < current)%nat) ∧
  (segmentLook (index segment) current = HIDDEN ↔ (current < k)%nat).
Proof.
  intros Hnum Hk. rewrite (Hnum k segment Hk). unfold segmentLook.
  destruct (Z.eqb_spec (Z.of_nat k + 1) (Z.of_nat current + 1)) as [Heq | Hne].
  - repeat split; intros H; try discriminate; lia.
  - destruct (Z.leb_spec (Z.of_nat k + 1) (Z.of_nat current)) as [Hle | Hgt];
      repeat split; intros H; try discriminate; try reflexivity; lia.
Qed.

(** Under a segment that [generateSegment] returned, every link rendered
    has a non-empty address and a non-empty label, no address is linked
    twice, and there are links exactly when the segment has sources. *)
Theorem links_of_generated_segment (host : Gemini.Host) (route : RouteDetails)
    (segmentIndex estimate : Z) (segmentOutline : string)
    (previousContext : option string) (segment : StorySegment) :
  Gemini.outcome (Gemini.generateSegment host route segmentIndex estimate segmentOutline
                    previousContext) = inr segment →
  (∀ href label, (href, label) ∈ sourceLinks segment → href ≠ "" ∧ label ≠ "") ∧
  NoDup (fst <$> sourceLinks segment) ∧
  (sourceLinks segment = [] ↔ sources segment = None).
Proof.
  rewrite ServiceProofs.segment_outcome.
  destruct (Gemini.generateContent host _) as [e | response]; [discriminate|].
  destruct (Gemini.trim host <$> Gemini.respText response) as [t|]; [|discriminate].
  destruct (String.eqb t ""); [discriminate|].
  intros [= <-]. unfold sourceLinks. cbn [sources].
  rewrite ServiceProofs.collectSources_chunksOf.
  destruct (ServiceProofs.collect_invariant (Gemini.chunksOf response) [])
    as (Hnd & _ & Hfrom); [apply NoDup_nil_2|].
  cbn zeta in Hnd, Hfrom.
  remember (fold_left Gemini.addSource (Gemini.chunksOf response) []) as r eqn:Hr.
  clear Hr.
  assert (Hlinks : match (if 0 <? Gemini.len r then Some r else None) with
                   | Some srcs =>
                       if 0 <? Gemini.len srcs
                       then (fun src => (uri src, title src)) <$> srcs else []
                   | None => []
                   end = (fun src => (uri src, title src)) <$> r)
    by now destruct r.
  rewrite Hlinks. clear Hlinks.
  assert (Hfst : ∀ l : list StorySource,
            fst <$> ((fun src => (uri src, title src)) <$> l) = uri <$> l).
  { induction l as [|a l IH]; [reflexivity|]. cbn. f_equal. exact IH. }
  split; [|split].
  - intros href label (src & [= -> ->] & Hin)%list_elem_of_fmap.
    destruct (Hfrom src Hin) as [Hnil | (c & _ & _ & _ & Hu & Ht)];
      [now apply elem_of_nil in Hnil | easy].
  - rewrite Hfst. exact Hnd.
  - destruct r; [easy | split; discriminate].
Qed.

End View.

(** ** More concrete inputs *)

Module MoreExamples.
Import Gemini ServiceProofs ServiceExamples ServiceFacts.
Import Player PlayerProofs PlayerExamples PlayerFacts View.

Definition climb : StorySegment :=
  mkSegment 2 "The tower rose in 1933." None
    (Some [mkSource "Coit Tower" "https://a.example/coit";
           mkSource "Pier 39" "https://b.example/pier"]).

(** The network is down: one line logged and the fallback returned. With a
    reply of three chapters, four asked for: no line, the reply padded. *)
Lemma outline_logs_iff_failure_witness :
  generateStoryOutline offline walk 3
  = ([ApiCall (outlineRequest offline walk 3);
      ConsoleError "Outline Generation Error:" (Error "fetch failed")],
     inr [OUTLINE_FALLBACK; OUTLINE_FALLBACK; OUTLINE_FALLBACK])
  ∧ generateStoryOutline counting walk 4
    = ([ApiCall (outlineRequest counting walk 4)],
       inr [JNum 1; JNum 2; JNum 3; OUTLINE_PLACEHOLDER]).
Proof.
  split.
  - destruct (outline_logs_iff_failure offline walk 3)
      as [(e & Hfail & Hrun) | (reply & Hreply & _)].
    + unfold MAX_ARRAY_LENGTH. lia.
    + reflexivity.
    + has_room.
    + rewrite Hrun.
      assert (e = Error "fetch failed") as ->; [|reflexivity].
      destruct Hfail as [e He | r Hr _ | r t e Hr _ _ _ | r t j Hr _ _ _ _];
        [now injection He | discriminate Hr ..].
    + destruct Hreply as (response & _ & Hr & _). discriminate Hr.
  - destruct (outline_logs_iff_failure counting walk 4)
      as [(e & Hfail & _) | (reply & Hreply & _ & Hrun)].
    + unfold MAX_ARRAY_LENGTH. lia.
    + reflexivity.
    + has_room.
    + now destruct (reply_not_failure counting walk 4 _ e (counting_replies 4)).
    + rewrite Hrun.
      now rewrite (reply_unique counting walk 4 reply _ Hreply (counting_replies 4)).
Defined.

Lemma outline_negative_count_on_reply_witness :
  generateStoryOutline counting walk (-1)
  = ([ApiCall (outlineRequest counting walk (-1))], inr [JNum 1; JNum 2]).
Proof.
  apply (outline_negative_count_on_reply counting walk (-1)
           (mkResponse (Some "[1,2,3]") None) "[1,2,3]" [JNum 1; JNum 2; JNum 3]).
  - lia.
  - reflexivity.
  - reflexivity.
  - discriminate.
  - reflexivity.
  - discriminate.
Defined.

Lemma segment_returned_witness :
  index climb = 2 ∧ text climb ≠ "" ∧
  ∃ response,
    generateContent grounded (segmentRequest grounded walk 2 5 "The climb" "") = inr response ∧
    trim grounded <$> respText response = Some (text climb).
Proof.
  apply (segment_returned grounded walk 2 5 "The climb" None climb). reflexivity.
Defined.

Lemma sources_in_order_witness :
  ∃ response,
    generateContent grounded (segmentRequest grounded walk 2 5 "The climb" "") = inr response ∧
    sources climb
    = match firstPerUri [] (omap sourceOf (chunksOf response)) with
      | [] => None
      | cited => Some cited
      end ∧
    ∀ chunk x, sourceOf chunk = Some x ↔ cites chunk (uri x) (title x).
Proof.
  apply (sources_in_order grounded walk 2 5 "The climb" None climb). reflexivity.
Defined.

Lemma links_of_generated_segment_witness :
  (∀ href label, (href, label) ∈ sourceLinks climb → href ≠ "" ∧ label ≠ "") ∧
  NoDup (fst <$> sourceLinks climb) ∧
  (sourceLinks climb = [] ↔ sources climb = None).
Proof.
  apply (links_of_generated_segment grounded walk 2 5 "The climb" None climb). reflexivity.
Defined.

Lemma transcript_highlights_current_witness :
  (segmentLook 2 1 = HIGHLIGHTED ↔ 1%nat = 1%nat) ∧
  (segmentLook 2 1 = DIMMED ↔ (1 < 1)%nat) ∧
  (segmentLook 2 1 = HIDDEN ↔ (1 < 1)%nat).
Proof.
  apply (transcript_highlights_current [chapter 1 None; chapter 2 None] 1 1 (chapter 2 None)).
  - intros [|[|j]] seg; cbn; intros [= <-]; reflexivity.
  - reflexivity.
Defined.

(** *** States of the player *)

(** Chapter 1 was paused ten seconds in. *)
Definition paused_first : State :=
  after [(both_ready, at_time 0, Click); (both_ready, at_time 10, Click)].

(** Play was pressed while the browser still held the context suspended. *)
Definition pending_start : State := after [(both_ready, mkEnv 0 suspended Qminus, Click)].

(** A story of one chapter, playing. *)
Definition solo : Props := mkProps (mkStory [chapter 1 (Some minute)] 1) false.
Definition playing_solo : State := after [(solo, at_time 0, Click)].

Definition first_node (closure : Props) : SourceNode :=
  mkNode (Some minute) 0%Q true (Some (chapter 1 (Some minute), closure)).

Lemma dispatch_total_witness :
  ∃ s', dispatch both_ready (at_time 60) (Ended 0) playing_first = inr s'.
Proof.
  apply (dispatch_total both_ready (at_time 60) (Ended 0) playing_first).
  apply after_reachable.
Defined.

Lemma never_waits_for_ready_buffer_witness :
  ¬ (isBuffering (bufferReadyEffect first_ready (at_time 5) (syncIndexRef waiting)) = true ∧
     isPlaying (bufferReadyEffect first_ready (at_time 5) (syncIndexRef waiting)) = true ∧
     is_Some ((segments (story first_ready)
                 !! currentSegmentIndex
                      (bufferReadyEffect first_ready (at_time 5) (syncIndexRef waiting)))
              ?. audioBuffer)).
Proof.
  apply (never_waits_for_ready_buffer first_ready (at_time 5) Rerender waiting).
  - reflexivity.
  - discriminate.
Defined.

(** Chapter 1 has played out and chapter 2 has started. *)
Definition playing_second : State :=
  after [(both_ready, at_time 0, Click); (both_ready, at_time 60, Ended 0)].

Lemma index_advances_on_end_only_witness :
  indexRef playing_first = currentSegmentIndex playing_first ∧
  indexRef playing_second = currentSegmentIndex playing_second ∧
  (currentSegmentIndex playing_second = currentSegmentIndex playing_first ∨
   (currentSegmentIndex playing_second = S (currentSegmentIndex playing_first) ∧
    ∃ i, Ended 0 = Ended i)).
Proof.
  apply (index_advances_on_end_only both_ready (at_time 60) (Ended 0)
           playing_first playing_second).
  - apply after_reachable.
  - vm_compute. reflexivity.
Defined.

Lemma pause_stops_audio_witness :
  ∃ s', dispatch both_ready (at_time 10) Click playing_first = inr s' ∧
    isPlaying s' = false ∧ autoScroll s' = false ∧
    isBuffering s' = isBuffering playing_first ∧
    quiet s' ∧ sourceRef s' = None ∧
    currentSegmentIndex s' = currentSegmentIndex playing_first ∧
    (isBuffering playing_first = false → is_Some (audioContextRef playing_first) →
       segmentOffsetRef s'
       = subtract (at_time 10) (currentTime (at_time 10)) (startTimeRef playing_first)) ∧
    (isBuffering playing_first = true ∨ audioContextRef playing_first = None →
       segmentOffsetRef s' = segmentOffsetRef playing_first).
Proof.
  apply (pause_stops_audio both_ready (at_time 10) playing_first).
  - apply after_reachable.
  - vm_compute. reflexivity.
Defined.

Lemma play_resumes_from_offset_witness :
  ∃ s', dispatch both_ready (at_time 20) Click paused_first = inr s' ∧
    isPlaying s' = true ∧ isBuffering s' = false ∧ autoScroll s' = true ∧
    now_playing s' (length (nodes paused_first)) minute (segmentOffsetRef paused_first) ∧
    (∀ j, active s' j → j = length (nodes paused_first)) ∧
    startTimeRef s'
    = subtract (at_time 20) (currentTime (at_time 20)) (segmentOffsetRef paused_first) ∧
    currentSegmentIndex s' = currentSegmentIndex paused_first.
Proof.
  apply (play_resumes_from_offset both_ready (at_time 20) paused_first
           (chapter 1 (Some minute)) minute).
  - apply after_reachable.
  - vm_compute. reflexivity.
  - vm_compute. reflexivity.
  - reflexivity.
  - vm_compute. discriminate.
Defined.

Lemma pause_then_play_continues_witness :
  let position :=
    subtract (at_time 10) (currentTime (at_time 10)) (startTimeRef playing_first) in
  ∃ s1 s2,
    dispatch both_ready (at_time 10) Click playing_first = inr s1 ∧
    dispatch both_ready (at_time 20) Click s1 = inr s2 ∧
    quiet s1 ∧ isPlaying s1 = false ∧ segmentOffsetRef s1 = position ∧
    isPlaying s2 = true ∧
    now_playing s2 (length (nodes playing_first)) minute position ∧
    (∀ j, active s2 j → j = length (nodes playing_first)) ∧
    startTimeRef s2 = subtract (at_time 20) (currentTime (at_time 20)) position.
Proof.
  apply (pause_then_play_continues both_ready both_ready (at_time 10) (at_time 20)
           playing_first 0 (chapter 1 (Some minute)) minute).
  - apply after_reachable.
  - vm_compute. reflexivity.
  - vm_compute. reflexivity.
  - exists (first_node both_ready). split; vm_compute; reflexivity.
  - vm_compute. reflexivity.
  - reflexivity.
Defined.

Lemma early_end_does_not_advance_witness :
  ∃ s', dispatch both_ready (at_time 10) (Ended 0) playing_first = inr s' ∧
    currentSegmentIndex s' = currentSegmentIndex playing_first ∧
    isPlaying s' = isPlaying playing_first ∧
    (isBuffering playing_first = false →
       isBuffering s' = false ∧ quiet s' ∧ resuming s' = resuming playing_first ∧
       length (nodes s') = length (nodes playing_first)).
Proof.
  apply (early_end_does_not_advance both_ready (at_time 10) playing_first 0
           (first_node both_ready) (chapter 1 (Some minute)) both_ready minute).
  - apply after_reachable.
  - vm_compute. reflexivity.
  - reflexivity.
  - reflexivity.
  - reflexivity.
  - vm_compute. reflexivity.
Defined.

Lemma story_end_then_play_witness :
  ∃ s1, dispatch solo (at_time 60) (Ended 0) playing_solo = inr s1 ∧
    isPlaying s1 = false ∧ quiet s1 ∧
    currentSegmentIndex s1 = S (currentSegmentIndex playing_solo) ∧
    ∀ props' env',
      segments (story props') !! S (currentSegmentIndex playing_solo) = None →
      ∃ s2, dispatch props' env' Click s1 = inr s2 ∧
        isPlaying s2 = true ∧ isBuffering s2 = true ∧ quiet s2 ∧
        currentSegmentIndex s2 = S (currentSegmentIndex playing_solo).
Proof.
  apply (story_end_then_play solo (at_time 60) playing_solo 0
           (first_node solo) (chapter 1 (Some minute)) minute).
  - apply after_reachable.
  - vm_compute. reflexivity.
  - reflexivity.
  - reflexivity.
  - reflexivity.
  - vm_compute. reflexivity.
  - vm_compute. reflexivity.
  - vm_compute. discriminate.
  - reflexivity.
Defined.

Lemma pause_keeps_pending_start_witness :
  ∃ s1, dispatch both_ready (at_time 1) Click pending_start = inr s1 ∧
    isPlaying s1 = false ∧ resuming s1 = resuming pending_start ∧
    ∀ props' env',
      ∃ s2, dispatch props' env' Resumed s1 = inr s2 ∧
        isPlaying s2 = false ∧
        now_playing s2 (length (nodes pending_start)) minute 0%Q.
Proof.
  apply (pause_keeps_pending_start both_ready (at_time 1) pending_start
           (chapter 1 (Some minute)) 0%Q both_ready [] suspended minute).
  - vm_compute. reflexivity.
  - vm_compute. reflexivity.
  - vm_compute. reflexivity.
  - discriminate.
  - reflexivity.
Defined.

Lemma unmount_silences_witness :
  ∃ s', dispatch both_ready (at_time 30) Unmount playing_first = inr s' ∧
    quiet s' ∧ sourceRef s' = None ∧
    (is_Some (audioContextRef playing_first) → audioContextRef s' = Some closed) ∧
    ∀ k env', quiet (settle_n k env' s') ∧ sourceRef (settle_n k env' s') = None.
Proof.
  apply (unmount_silences both_ready (at_time 30) playing_first).
  apply after_reachable.
Defined.

End MoreExamples.
